(** * doc2struct: pivot selection, assignment, banding and scoring

    A shallow embedding of the numeric engine of [src/doc2struct/main.py]
    (functions [greedy_farthest_pivots], [assign_to_nearest_pivot],
    [compute_bands_for_pivot], [knn_redundancy], [minmax_norm] and the
    record-building part of [process_file]).

    Conventions of the embedding:
    - a numpy [float32] scalar is an exact rational ([Q]); rounding, NaN and
      infinities are not represented, and [.astype(np.float32)] is the
      identity.  The properties below therefore use the order of the computed
      similarities and distances and the shape of the formulas; none of them
      rests on an identity of real arithmetic that rounded inner products
      need not satisfy (the norm of a unit vector being exactly 1, the
      Cauchy-Schwarz inequality);
    - an [N x D] matrix is the list of its rows;
    - an array index is a [nat]; an indexing operation that raises
      [IndexError] in Python is a [None] in the [option] monad;
    - the global numpy random generator is a list of draws that
      [np.random.choice] consumes one at a time.
    The file readers, the chunker, the embedding model and the file writers
    are outside the engine: the model of [process_file] starts from the
    embedded matrix [vecs] and stops at the row sequences handed to the
    writers.  The chunker ([split_into_sentences], [make_chunks]) is
    embedded on its own, over strings as lists of code points, with the
    whitespace test and the regular-expression splits as parameters. *)

From Stdlib Require Import QArith Qround Lia Lqa.
From stdpp Require Import base option list gmap sorting.

Local Open Scope nat_scope.

(** ** Configuration constants *)

Definition NUM_PIVOTS : Z := 12.
Definition KNN : nat := 16.
Definition BAND_QUANTILES : list Q := [1 # 4; 1 # 2; 3 # 4]%Q.

(** ** Scalars, vectors and matrices *)

Definition vec := list Q.
Definition matrix := list vec.

Definition Qltb (x y : Q) : bool := negb (Qle_bool y x).

Global Instance Qle_dec : RelDecision Qle.
Proof.
  intros x y. destruct (Qle_bool x y) eqn:E.
  - left. apply Qle_bool_iff. exact E.
  - right. intros H. apply Qle_bool_iff in H. congruence.
Defined.

Global Instance Qge_dec : RelDecision (flip Qle).
Proof. intros x y. unfold flip. apply Qle_dec. Defined.

(** [u @ v] for two 1-d arrays. *)
Fixpoint dot (u v : vec) : Q :=
  match u, v with
  | x :: u', y :: v' => (x * y + dot u' v')%Q
  | _, _ => 0%Q
  end.

(** [m @ v]: the inner product of every row of [m] with [v]. *)
Definition matvec (m : matrix) (v : vec) : list Q := map (fun r => dot r v) m.

(** [m[i]] for a row index that the caller keeps in range. *)
Definition row (m : matrix) (i : nat) : vec := default [] (m !! i).

Definition vadd (u v : vec) : vec := zip_with Qplus u v.

(** [m.mean(axis=0)]: the mean of the rows. *)
Definition mean_axis0 (m : matrix) : vec :=
  match m with
  | [] => []
  | r :: rs =>
      map (fun s => (s / inject_Z (Z.of_nat (length m)))%Q) (foldl vadd r rs)
  end.

(** [np.maximum(a, b)], elementwise. *)
Definition Qmaximum (a b : Q) : Q := if Qle_bool a b then b else a.
Definition maximum (a b : list Q) : list Q := zip_with Qmaximum a b.

(** [np.argmin]: the index of the first occurrence of the minimum.  numpy
    raises on an empty array; every caller below passes a non-empty one. *)
Fixpoint argmin_from (i best : nat) (bv : Q) (l : list Q) : nat :=
  match l with
  | [] => best
  | x :: t =>
      if Qltb x bv then argmin_from (S i) i x t
      else argmin_from (S i) best bv t
  end.

Definition argmin (l : list Q) : nat :=
  match l with
  | [] => 0
  | x :: t => argmin_from 1 0 x t
  end.

(** [np.argmax]: the index of the first occurrence of the maximum. *)
Fixpoint argmax_from (i best : nat) (bv : Q) (l : list Q) : nat :=
  match l with
  | [] => best
  | x :: t =>
      if Qltb bv x then argmax_from (S i) i x t
      else argmax_from (S i) best bv t
  end.

Definition argmax (l : list Q) : nat :=
  match l with
  | [] => 0
  | x :: t => argmax_from 1 0 x t
  end.

Definition Qsum (l : list Q) : Q := foldr Qplus 0%Q l.

(** [a.mean()] of a 1-d array. *)
Definition Qmean (l : list Q) : Q :=
  (Qsum l / inject_Z (Z.of_nat (length l)))%Q.

(** ** The random source *)

(** [np.random.choice(a)] on a non-empty list [a]: one draw is consumed and
    reduced modulo [len(a)]; an exhausted source keeps answering with the
    first element. *)
Definition random_choice (rng : list nat) (a : list nat) : nat * list nat :=
  match rng with
  | [] => (nth 0 a 0, [])
  | r :: rng' => (nth (r mod length a) a 0, rng')
  end.

(** ** Pivot selector *)

(** The body of [for _ in range(1, max_pivots)], run [iters] times. *)
Fixpoint fps_loop (vecs : matrix) (iters : nat) (pivots : list nat)
    (nearest_sim : list Q) (rng : list nat) : list nat :=
  match iters with
  | 0 => pivots
  | S k =>
      let pick := argmin nearest_sim in
      if bool_decide (pick ∈ pivots) then
        let remaining :=
          filter (fun i => i ∉ pivots) (seq 0 (length vecs)) in
        match remaining with
        | [] => pivots
        | _ :: _ =>
            let '(pick', rng') := random_choice rng remaining in
            fps_loop vecs k (pivots ++ [pick'])
              (maximum nearest_sim (matvec vecs (row vecs pick'))) rng'
        end
      else
        fps_loop vecs k (pivots ++ [pick])
          (maximum nearest_sim (matvec vecs (row vecs pick))) rng
  end.

(** The list [pivots] of [greedy_farthest_pivots] as it stands just before
    the [return]: the pivots in the order in which they were chosen. *)
Definition greedy_selection (vecs : matrix) (max_pivots : Z)
    (rng : list nat) : list nat :=
  let n := length vecs in
  if decide (n = 0) then []
  else
    let max_pivots := Z.min max_pivots (Z.max 1 (Z.of_nat n)) in
    let centroid := mean_axis0 vecs in
    let sims := matvec vecs centroid in
    let seed := argmin sims in
    let nearest_sim := matvec vecs (row vecs seed) in
    fps_loop vecs (Z.to_nat (max_pivots - 1)) [seed] nearest_sim rng.

(** [sorted(list(set(l)))]. *)
Definition sorted_set (l : list nat) : list nat :=
  merge_sort Nat.le (elements (list_to_set l : gset nat)).

Definition greedy_farthest_pivots (vecs : matrix) (max_pivots : Z)
    (rng : list nat) : list nat :=
  if decide (length vecs = 0) then []
  else sorted_set (greedy_selection vecs max_pivots rng).

(** ** Assigner *)

(** [vecs[pivots]]: fancy indexing, which raises on an index out of range. *)
Definition take_rows (vecs : matrix) (pivots : list nat) : option matrix :=
  mapM (fun p => vecs !! p) pivots.

(** [sims[np.arange(n), best]]. *)
Definition pick_best (sims : list (list Q)) (best : list nat)
    : option (list Q) :=
  mapM (fun sb : list Q * nat => sb.1 !! sb.2) (zip sims best).

Definition assign_to_nearest_pivot (vecs : matrix) (pivots : list nat)
    : option (list nat * list Q) :=
  if decide (length pivots = 0) then Some ([], [])
  else
    P ← take_rows vecs pivots;
    let sims := map (fun v => map (fun p => dot v p) P) vecs in
    let best := map argmax sims in
    best_sim ← pick_best sims best;
    let dist := map (fun s => (1 - s)%Q) best_sim in
    Some (best, dist).

(** ** Per-pivot bands *)

(** [np.quantile(a, q)] with the default linear interpolation, on a
    non-empty array: the value at the virtual index [q * (len(a) - 1)] of the
    sorted array.  A fraction outside [[0, 1]] raises. *)
Definition np_quantile (a : list Q) (q : Q) : option Q :=
  if decide ((0 <= q)%Q /\ (q <= 1)%Q) then
    let s := merge_sort Qle a in
    let virt := (q * inject_Z (Z.of_nat (length a - 1)))%Q in
    let prev := Z.to_nat (Qfloor virt) in
    let next := Nat.min (prev + 1) (length a - 1) in
    let gamma := (virt - inject_Z (Qfloor virt))%Q in
    lo ← s !! prev;
    hi ← s !! next;
    Some (lo + (hi - lo) * gamma)%Q
  else None.

(** The inner function [band_of] of [compute_bands_for_pivot]. *)
Definition band_of (qs : list Q) (x : Q) : nat :=
  match list_find (fun q => (x <= q)%Q) qs with
  | Some (b, _) => b
  | None => length qs
  end.

Definition compute_bands_for_pivot (dists : list Q) (quantiles : list Q)
    : option (list nat) :=
  if decide (length dists = 0) then Some []
  else
    qs ← mapM (np_quantile dists) quantiles;
    Some (map (band_of qs) dists).

(** ** Redundancy estimator *)

(** [IndexFlatIP.search(queries, k)] on an index holding [vecs], scores
    only: for every query the [k] largest inner products, in descending
    order.  The callers keep [k <= len(vecs)].  faiss refuses [k = 0], which
    [knn_redundancy] asks for on an empty corpus only: [search] and
    [knn_redundancy] model the code on a corpus of at least one vector. *)
Definition search (vecs queries : matrix) (k : nat) : list (list Q) :=
  map (fun v => take k (merge_sort (flip Qle) (matvec vecs v))) queries.

Definition knn_redundancy (vecs : matrix) (k : nat) : list Q :=
  let n := length vecs in
  let k_eff := Nat.min (k + 1) n in
  let sims := search vecs vecs k_eff in
  let '(sims, cols) :=
    if decide (1 < k_eff) then (map (drop 1) sims, k_eff - 1)
    else (sims, k_eff) in
  if decide (n * cols = 0) then replicate n 0%Q
  else map Qmean sims.

(** ** Min-max normalisation *)

Definition Qminimum (a b : Q) : Q := if Qle_bool a b then a else b.

(** [np.min] and [np.max] of a non-empty 1-d array. *)
Definition np_min (x : list Q) : Q :=
  match x with
  | [] => 0%Q
  | x0 :: t => foldl Qminimum x0 t
  end.

Definition np_max (x : list Q) : Q :=
  match x with
  | [] => 0%Q
  | x0 :: t => foldl Qmaximum x0 t
  end.

Definition minmax_norm (x : list Q) : list Q :=
  if decide (length x = 0) then x
  else
    let lo := np_min x in
    let hi := np_max x in
    if Qltb (hi - lo) (1 # 100000000) then map (fun _ => 0%Q) x
    else map (fun xi => ((xi - lo) / (hi - lo))%Q) x.

(** ** Main pipeline *)

(** One output record.  The fields [text], [pivot_text] and [source] are
    copied from the chunker's output and are determined by [id] and
    [pivot_id]; they are left out. *)
Record record := mk_record {
  id : nat;
  pivot_id : nat;
  pivot_local_index : nat;
  band : nat;
  novelty : Q;
  redundancy : Q;
  energy : Q
}.

(** [arr[mask]]: the entries of [arr] at the positions where [mask] holds. *)
Fixpoint mask_select {A} (mask : list bool) (arr : list A) : list A :=
  match mask, arr with
  | m :: mask', a :: arr' =>
      if m then a :: mask_select mask' arr' else mask_select mask' arr'
  | _, _ => []
  end.

(** [dst[mask] = src]: the masked positions of [dst] receive the entries of
    [src] in order.  The caller passes as many entries as the mask selects. *)
Fixpoint scatter {A} (mask : list bool) (dst src : list A) : list A :=
  match mask, dst with
  | m :: mask', d :: dst' =>
      if m then
        match src with
        | s :: src' => s :: scatter mask' dst' src'
        | [] => d :: scatter mask' dst' []
        end
      else d :: scatter mask' dst' src
  | _, _ => dst
  end.

(** One iteration of [for p_local, p in enumerate(pivots)]. *)
Definition band_step (assign_idx : list nat) (novelty_dist : list Q)
    (st : option (list nat)) (p_local : nat) : option (list nat) :=
  band_ids ← st;
  let mask := map (fun a => bool_decide (a = p_local)) assign_idx in
  let pdists := mask_select mask novelty_dist in
  pbands ← compute_bands_for_pivot pdists BAND_QUANTILES;
  Some (scatter mask band_ids pbands).

(** One iteration of [for i, text in enumerate(chunks)]. *)
Definition build_record (pivots assign_idx band_ids : list nat)
    (novelty_norm redundancy_norm energy : list Q) (i : nat)
    : option record :=
  pid_local ← assign_idx !! i;
  pid_global ← pivots !! pid_local;
  b ← band_ids !! i;
  nov ← novelty_norm !! i;
  red ← redundancy_norm !! i;
  e ← energy !! i;
  Some (mk_record i pid_global pid_local b nov red e).

(** The order of [sort_values(["pivot_local_index", "band", "energy"],
    ascending=[True, True, False])].  pandas keeps rows with equal keys in
    their original order; the merge sort below returns some permutation that
    is sorted for this order, which is all that the statements use. *)
Definition row_le (r1 r2 : record) : Prop :=
  pivot_local_index r1 < pivot_local_index r2 \/
  (pivot_local_index r1 = pivot_local_index r2 /\
   (band r1 < band r2 \/
    (band r1 = band r2 /\ (energy r2 <= energy r1)%Q))).

Global Instance row_le_dec : RelDecision row_le.
Proof. intros r1 r2. unfold row_le. apply _. Defined.

(** What [process_file] hands to the writers. *)
Record outputs := mk_outputs {
  pivots_json : list nat;              (* pivot ids of pivots.json *)
  structured_dataset_jsonl : list record;  (* one line per [rec in records] *)
  df : list record;                    (* the sorted DataFrame *)
  train_csv : list (nat * nat)         (* (chunk of the text, label) rows *)
}.

(** [process_file] from the embedded matrix on, for a corpus of at least one
    chunk (on an empty one the code raises in the redundancy search).
    [int(np.ceil(np.sqrt(n)))] is the integer ceiling square root. *)
Definition process_file (vecs : matrix) (rng : list nat) : option outputs :=
  let n := length vecs in
  let pivots :=
    greedy_farthest_pivots vecs
      (Z.min NUM_PIVOTS (Z.max 1 (Z.sqrt_up (Z.of_nat n)))) rng in
  an ← assign_to_nearest_pivot vecs pivots;
  let assign_idx := an.1 in
  let novelty_dist := an.2 in
  let redundancy_sim := knn_redundancy vecs KNN in
  let novelty_norm := minmax_norm novelty_dist in
  let redundancy_norm := minmax_norm redundancy_sim in
  let energy :=
    zip_with (fun a b => (a * (1 - b))%Q) novelty_norm redundancy_norm in
  band_ids ←
    foldl (band_step assign_idx novelty_dist) (Some (replicate n 0))
      (seq 0 (length pivots));
  records ←
    mapM (build_record pivots assign_idx band_ids novelty_norm
            redundancy_norm energy) (seq 0 n);
  let df := merge_sort row_le records in
  Some (mk_outputs pivots records df
          (map (fun r => (id r, pivot_local_index r)) df)).

(** ** Predicates used in the statements *)

(** What the selection loop keeps true of the pivots chosen so far. *)
Definition fps_inv (vecs : matrix) (pivots : list nat) : Prop :=
  NoDup pivots /\ Forall (fun p => p < length vecs) pivots.

(** [b] is the first position of the largest entry [v] of [l]. *)
Definition first_max (l : list Q) (b : nat) (v : Q) : Prop :=
  l !! b = Some v /\
  (forall j y, l !! j = Some y -> (y <= v)%Q) /\
  (forall j y, j < b -> l !! j = Some y -> (y < v)%Q).

Definition in_unit (y : Q) : Prop := (0 <= y)%Q /\ (y <= 1)%Q.

Definition is_fraction (q : Q) : Prop := (0 <= q)%Q /\ (q <= 1)%Q.

(** [b] is the band of distance [d] for the cut-points [qs]: the smallest
    index whose cut-point is not below [d], or [len(qs)] when [d] exceeds
    them all. *)
Definition is_band (qs : list Q) (d : Q) (b : nat) : Prop :=
  (exists c, qs !! b = Some c /\ (d <= c)%Q /\
        forall j c', j < b -> qs !! j = Some c' -> (c' < d)%Q) \/
  (b = length qs /\ Forall (fun c => (c < d)%Q) qs).

(** The distances of the chunks assigned to the pivot of local index [p],
    and the cut-points computed from them. *)
Definition group_dists (assign_idx : list nat) (novelty_dist : list Q)
    (p : nat) : list Q :=
  mask_select (map (fun a => bool_decide (a = p)) assign_idx) novelty_dist.

Definition group_cutpoints (assign_idx : list nat) (novelty_dist : list Q)
    (p : nat) : list Q :=
  default []
    (mapM (np_quantile (group_dists assign_idx novelty_dist p))
       BAND_QUANTILES).

(** A corpus of three unit vectors, used for the concrete evaluations. *)
Definition example_corpus : matrix :=
  [[3 # 5; 4 # 5]; [1; 0]; [-1; 0]]%Q.

(** ** Predicates for the pivot selector *)

(** [b] is the first position of the smallest entry [v] of [l]. *)
Definition first_min (l : list Q) (b : nat) (v : Q) : Prop :=
  l !! b = Some v /\
  (forall j y, l !! j = Some y -> (v <= y)%Q) /\
  (forall j y, j < b -> l !! j = Some y -> (v < y)%Q).

(** The array [nearest_sim] of [greedy_farthest_pivots] as a function of the
    pivots chosen so far: initialised from the seed, then updated with
    [np.maximum] for every later pivot. *)
Fixpoint nearest_sim_from (vecs : matrix) (nearest_sim : list Q)
    (picks : list nat) : list Q :=
  match picks with
  | [] => nearest_sim
  | pick :: picks' =>
      nearest_sim_from vecs
        (maximum nearest_sim (matvec vecs (row vecs pick))) picks'
  end.

Definition nearest_sim_of (vecs : matrix) (pivots : list nat) : list Q :=
  match pivots with
  | [] => []
  | seed :: picks => nearest_sim_from vecs (matvec vecs (row vecs seed)) picks
  end.

(** One round of the selection loop, seen from outside: [pick] is appended
    to the pivots [pre].  Either it is the point of least [nearest_sim], or
    that point was a pivot already and [pick] is some point that is not. *)
Definition greedy_step (vecs : matrix) (pre : list nat) (pick : nat) : Prop :=
  let far := argmin (nearest_sim_of vecs pre) in
  ((far ∉ pre) /\ pick = far) \/
  ((far ∈ pre) /\ (pick ∉ pre) /\ pick < length vecs).

(** [m] is the largest similarity of vector [i] to the pivots [pre]. *)
Definition is_max_sim (vecs : matrix) (pre : list nat) (i : nat) (m : Q)
    : Prop :=
  exists v, vecs !! i = Some v /\
    (forall p pv, p ∈ pre -> vecs !! p = Some pv -> (dot v pv <= m)%Q) /\
    (exists p pv, (p ∈ pre) /\ vecs !! p = Some pv /\ m = dot v pv).

(** ** Chunker *)

(** A Python [str] is the list of its code points; [len] is its length. *)
Abbreviation char := nat.
Abbreviation str := (list char).
Definition space : char := 32.

Section chunker.
(** The whitespace test of [str.strip()], and the two calls of [re.split] of
    [split_into_sentences] (on the sentence pattern and on [\n+]), taken as
    parameters. *)
Variable isspace : char -> bool.
Variable re_split_sentences : str -> list str.
Variable re_split_newlines : str -> list str.

Fixpoint lstrip (s : str) : str :=
  match s with
  | [] => []
  | c :: s' => if isspace c then lstrip s' else s
  end.

Definition rstrip (s : str) : str := reverse (lstrip (reverse s)).

(** [s.strip()]. *)
Definition strip (s : str) : str := rstrip (lstrip s).

Definition split_into_sentences (text : str) : list str :=
  let sents := re_split_sentences (strip text) in
  let sents :=
    if decide (length sents = 1) then re_split_newlines (strip text)
    else sents in
  map strip (filter (fun s => strip s <> []) sents).

(** The body of the inner loop of [make_chunks] for one sentence [s]; the
    state is the pair of [chunks] and [buf]. *)
Definition chunk_step (target_len overlap : Z) (st : list str * str)
    (s : str) : list str * str :=
  let '(chunks, buf) := st in
  if decide (Z.of_nat (length buf) + 1 + Z.of_nat (length s) <= target_len)%Z
  then (chunks, if decide (buf = []) then s else strip (buf ++ [space] ++ s))
  else
    let chunks := if decide (buf = []) then chunks else chunks ++ [buf] in
    if decide (0 < overlap /\ overlap < Z.of_nat (length buf))%Z then
      let carry := drop (length buf - Z.to_nat overlap) buf in
      (chunks, strip (carry ++ [space] ++ s))
    else (chunks, s).

Definition make_chunks (paragraphs : list str) (target_len overlap : Z)
    : list str :=
  let '(chunks, buf) :=
    foldl (fun st para =>
             foldl (chunk_step target_len overlap) st
               (split_into_sentences para))
      ([], []) paragraphs in
  let chunks := if decide (buf = []) then chunks else chunks ++ [buf] in
  map strip (filter (fun c => 20 <= length (strip c)) chunks).

End chunker.

(** A sample whitespace test (the ASCII whitespace characters) and a sample
    splitter (no split point found), for concrete evaluations. *)
Definition ascii_isspace (c : char) : bool :=
  bool_decide (c = 32 \/ (9 <= c /\ c <= 13)).
Definition no_split (t : str) : list str := [t].

(** Two short sample paragraphs (" Hi. " and "OK."). *)
Definition sample_paragraphs : list str :=
  [[32; 72; 105; 46; 32]; [79; 75; 46]].

(** [s] occurs in [t] as a run of consecutive characters. *)
Definition substring_of (s t : str) : Prop := exists a b, t = a ++ s ++ b.

(** A string that [strip] leaves alone: empty, or with a first and a last
    character that are not whitespace. *)
Definition stripped (isspace : char -> bool) (s : str) : Prop :=
  strip isspace s = s.

(** The sentences that the two nested loops of [make_chunks] go through. *)
Definition all_sentences (isspace : char -> bool)
    (re_split_sentences re_split_newlines : str -> list str)
    (paragraphs : list str) : list str :=
  concat
    (map (split_into_sentences isspace re_split_sentences re_split_newlines)
       paragraphs).

(** [" ".join(ss)]. *)
Fixpoint join_space (ss : list str) : str :=
  match ss with
  | [] => []
  | [s] => s
  | s :: ss' => s ++ [space] ++ join_space ss'
  end.

(** What the loop of [make_chunks] keeps true of its state [(chunks, buf)]
    when the sentences are not longer than [L]: no buffer and no chunk is
    longer than the larger of [target_len] and [overlap + 1 + L]. *)
Definition within (target_len overlap L : Z) (st : list str * str) : Prop :=
  let B := Z.max target_len (Z.max 0 overlap + 1 + L) in
  Forall (fun c => (Z.of_nat (length c) <= B)%Z) st.1 /\
  (Z.of_nat (length st.2) <= B)%Z.

(** The number of chunks, counting a non-empty buffer as one. *)
Definition pending (st : list str * str) : nat :=
  length st.1 + (if decide (st.2 = []) then 0 else 1).

(** What the loop keeps true of its state for stripped, non-empty
    sentences: buffer and chunks are stripped and no chunk is empty; every
    sentence seen so far occurs in a chunk or in the buffer. *)
Definition covers (isspace : char -> bool) (seen : list str)
    (st : list str * str) : Prop :=
  stripped isspace st.2 /\
  Forall (fun c => c <> [] /\ stripped isspace c) st.1 /\
  (seen <> [] -> st.2 <> []) /\
  forall x, x ∈ seen ->
       (exists c, (c ∈ st.1) /\ substring_of x c) \/ substring_of x st.2.

(** * Properties *)

(** ** Array helpers *)

Lemma argmin_from_lt i best bv l :
  best < i → argmin_from i best bv l < i + length l.
Proof.
  revert i best bv. induction l as [|x t IH]; intros i best bv Hb; simpl.
  - lia.
  - destruct (Qltb x bv).
    + specialize (IH (S i) i x). lia.
    + specialize (IH (S i) best bv). lia.
Qed.

Lemma argmin_lt l : 0 < length l → argmin l < length l.
Proof.
  destruct l as [|x t]; simpl; [lia|]. intros _.
  pose proof (argmin_from_lt 1 0 x t). lia.
Qed.

Lemma length_matvec m v : length (matvec m v) = length m.
Proof. unfold matvec. by rewrite length_map. Qed.

Lemma length_maximum a b :
  length a = length b → length (maximum a b) = length a.
Proof. intros H. unfold maximum. by rewrite length_zip_with_l_eq. Qed.

(** ** The random source *)

Lemma random_choice_elem_of rng a :
  a ≠ [] → (random_choice rng a).1 ∈ a.
Proof.
  intros Ha. assert (0 < length a) by (destruct a; simpl; [done|lia]).
  apply list_elem_of_In. destruct rng as [|r rng']; simpl.
  - apply nth_In. lia.
  - apply nth_In. apply Nat.mod_upper_bound. lia.
Qed.

(** ** Pivot selector *)

Lemma remaining_nil_length n (pivots : list nat) :
  filter (fun i => i ∉ pivots) (seq 0 n) = [] → n ≤ length pivots.
Proof.
  intros Hnil.
  assert (Hsub : seq 0 n ⊆+ pivots).
  { apply NoDup_submseteq; [apply NoDup_seq|].
    intros x Hx. destruct (decide (x ∈ pivots)) as [|Hn]; [done|].
    assert (x ∈ filter (fun i => i ∉ pivots) (seq 0 n)) as Hf
      by (apply list_elem_of_filter; done).
    rewrite Hnil in Hf. by apply not_elem_of_nil in Hf. }
  apply submseteq_length in Hsub. by rewrite length_seq in Hsub.
Qed.

Section fps.
Variable vecs : matrix.
Hypothesis Hn : 0 < length vecs.

Lemma fps_inv_snoc pivots p :
  fps_inv vecs pivots → p ∉ pivots → p < length vecs →
  fps_inv vecs (pivots ++ [p]).
Proof.
  intros [Hnd Hall] Hp Hlt. split.
  - apply NoDup_app. split_and!; [done| |apply NoDup_singleton].
    intros x Hx Hx'. apply list_elem_of_singleton in Hx'. by subst.
  - apply Forall_app. split; [done|]. by apply Forall_singleton.
Qed.

Lemma fps_loop_spec iters : ∀ pivots nearest_sim rng,
  length nearest_sim = length vecs →
  fps_inv vecs pivots →
  let r := fps_loop vecs iters pivots nearest_sim rng in
  fps_inv vecs r ∧ pivots `prefix_of` r ∧
  length r ≤ length pivots + iters ∧
  (length pivots + iters ≤ length vecs →
   length r = length pivots + iters).
Proof.
  induction iters as [|k IH]; intros pivots ns rng Hlen Hinv; simpl.
  - split_and!; [done|done|lia|lia].
  - case_bool_decide as Hpick.
    + destruct (filter _ (seq 0 (length vecs))) as [|x rem] eqn:Hrem.
      * apply remaining_nil_length in Hrem.
        split_and!; [done|done|lia|lia].
      * pose proof (random_choice_elem_of rng (x :: rem)) as Hin.
        destruct (random_choice rng (x :: rem)) as [pick' rng'].
        simpl in Hin. specialize (Hin ltac:(done)).
        rewrite <- Hrem in Hin. apply list_elem_of_filter in Hin.
        destruct Hin as [Hnot Hseq]. apply elem_of_seq in Hseq.
        destruct (IH (pivots ++ [pick'])
                    (maximum ns (matvec vecs (row vecs pick'))) rng')
          as (H1 & H2 & H3 & H4).
        { rewrite length_maximum; [done|]. by rewrite length_matvec. }
        { apply fps_inv_snoc; [done|done|lia]. }
        rewrite length_app in H3, H4. simpl in H3, H4.
        split_and!; [done| |lia|lia].
        etrans; [|exact H2]. by apply prefix_app_r.
    + assert (argmin ns < length vecs) as Hlt.
      { rewrite <- Hlen. apply argmin_lt. lia. }
      destruct (IH (pivots ++ [argmin ns])
                  (maximum ns (matvec vecs (row vecs (argmin ns)))) rng)
        as (H1 & H2 & H3 & H4).
      { rewrite length_maximum; [done|]. by rewrite length_matvec. }
      { by apply fps_inv_snoc. }
      rewrite length_app in H3, H4. simpl in H3, H4.
      split_and!; [done| |lia|lia].
      etrans; [|exact H2]. by apply prefix_app_r.
Qed.
End fps.

Lemma greedy_selection_spec vecs max_pivots rng :
  0 < length vecs →
  let r := greedy_selection vecs max_pivots rng in
  fps_inv vecs r ∧ 1 ≤ length r ∧
  ((1 ≤ max_pivots)%Z →
   Z.of_nat (length r) = Z.min max_pivots (Z.of_nat (length vecs))).
Proof.
  intros Hn. unfold greedy_selection.
  destruct (decide (length vecs = 0)) as [|_]; [lia|].
  set (seed := argmin (matvec vecs (mean_axis0 vecs))).
  assert (seed < length vecs) as Hseed.
  { unfold seed. rewrite <- (length_matvec vecs (mean_axis0 vecs)).
    apply argmin_lt. by rewrite length_matvec. }
  set (iters := Z.to_nat _).
  destruct (fps_loop_spec vecs Hn iters [seed]
              (matvec vecs (row vecs seed)) rng) as (H1 & H2 & H3 & H4).
  { apply length_matvec. }
  { split; [apply NoDup_singleton|by apply Forall_singleton]. }
  simpl in *. split_and!; [done| |].
  - apply prefix_length in H2. simpl in H2. lia.
  - intros Hmp. rewrite H4; unfold iters; lia.
Qed.

Lemma sorted_set_perm l : NoDup l → sorted_set l ≡ₚ l.
Proof.
  intros Hnd. unfold sorted_set.
  rewrite merge_sort_Permutation. by apply elements_list_to_set.
Qed.

Lemma sorted_set_elem_of l x : x ∈ sorted_set l ↔ x ∈ l.
Proof.
  unfold sorted_set. rewrite merge_sort_Permutation.
  rewrite elem_of_elements. apply elem_of_list_to_set.
Qed.

Lemma sorted_set_NoDup l : NoDup (sorted_set l).
Proof.
  unfold sorted_set. rewrite merge_sort_Permutation. apply NoDup_elements.
Qed.

Lemma sorted_set_sorted l : StronglySorted lt (sorted_set l).
Proof.
  pose proof (sorted_set_NoDup l) as Hnd.
  assert (StronglySorted Nat.le (sorted_set l)) as Hs.
  { unfold sorted_set. apply StronglySorted_merge_sort; apply _. }
  induction Hs as [|x t Hs IH Hall]; [constructor|].
  apply NoDup_cons in Hnd as [Hx Hnd]. constructor; [by apply IH|].
  apply Forall_forall. intros y Hy.
  rewrite Forall_forall in Hall. specialize (Hall y Hy).
  assert (x ≠ y) by (intros ->; done). unfold Nat.le in *. lia.
Qed.

Lemma filter_lt_nil g (t : list nat) :
  Forall (lt g) t → filter (fun x => x < g) t = [].
Proof.
  induction 1 as [|y t Hy _ IH]; [done|].
  rewrite filter_cons_False by lia. exact IH.
Qed.

(** In a strictly ascending list an entry sits at the position given by the
    number of smaller entries. *)
Lemma sorted_lt_position l : ∀ k g,
  StronglySorted lt l → l !! k = Some g →
  length (filter (fun x => x < g) l) = k.
Proof.
  induction l as [|x t IH]; intros k g Hs Hk; [done|].
  apply StronglySorted_inv in Hs as [Hs Hall].
  destruct k as [|k]; simpl in Hk.
  - injection Hk as ->. rewrite filter_cons_False by lia.
    by rewrite filter_lt_nil.
  - assert (x < g) as Hxg.
    { rewrite Forall_forall in Hall. apply Hall.
      by eapply list_elem_of_lookup_2. }
    rewrite filter_cons_True by done. simpl. f_equal. by apply IH.
Qed.


Lemma Qltb_true x y : Qltb x y = true ↔ (x < y)%Q.
Proof.
  unfold Qltb. rewrite negb_true_iff. split.
  - intros H. apply Qnot_le_lt. intros Hle.
    apply Qle_bool_iff in Hle. congruence.
  - intros H. destruct (Qle_bool y x) eqn:E; [|done].
    apply Qle_bool_iff in E. apply Qlt_not_le in H. done.
Qed.

Lemma Qltb_false x y : Qltb x y = false ↔ (y <= x)%Q.
Proof.
  unfold Qltb. rewrite negb_false_iff. apply Qle_bool_iff.
Qed.

Lemma argmax_from_spec l : ∀ pre i best bv,
  i = length pre →
  first_max pre best bv →
  ∃ v, first_max (pre ++ l) (argmax_from i best bv l) v.
Proof.
  induction l as [|x t IH]; intros pre i best bv Hi Hfm; simpl.
  - exists bv. by rewrite app_nil_r.
  - destruct Hfm as (Hb & Hle & Hlt).
    replace (pre ++ x :: t) with ((pre ++ [x]) ++ t)
      by (by rewrite <- app_assoc).
    assert (S i = length (pre ++ [x])) as HSi
      by (rewrite length_app; simpl; lia).
    destruct (Qltb bv x) eqn:E.
    + apply Qltb_true in E. apply IH; [done|]. split_and!.
      * subst i. by rewrite lookup_app_r, Nat.sub_diag.
      * intros j y Hj. apply lookup_app_Some in Hj as [Hj|[_ Hj]].
        -- apply Qlt_le_weak. eapply Qle_lt_trans; [by eapply Hle|done].
        -- apply list_lookup_singleton_Some in Hj as [_ <-]. apply Qle_refl.
      * intros j y Hjlt Hj. rewrite lookup_app_l in Hj by lia.
        eapply Qle_lt_trans; [by eapply Hle|done].
    + apply Qltb_false in E. apply IH; [done|]. split_and!.
      * apply lookup_app_l_Some. done.
      * intros j y Hj. apply lookup_app_Some in Hj as [Hj|[_ Hj]].
        -- by eapply Hle.
        -- apply list_lookup_singleton_Some in Hj as [_ <-]. done.
      * intros j y Hjlt Hj. apply lookup_lt_Some in Hb.
        rewrite lookup_app_l in Hj by lia. by eapply Hlt.
Qed.

Lemma argmax_spec l : l ≠ [] → ∃ v, first_max l (argmax l) v.
Proof.
  destruct l as [|x t]; [done|]. intros _. simpl.
  apply (argmax_from_spec t [x] 1 0 x); [done|]. split_and!; [done| |].
  - intros j y Hj. apply list_lookup_singleton_Some in Hj as [_ <-].
    apply Qle_refl.
  - intros j y Hj. lia.
Qed.

Lemma argmax_lt l : 0 < length l → argmax l < length l.
Proof.
  intros Hl. destruct (argmax_spec l) as (v & Hv & _).
  { destruct l; simpl in *; [lia|done]. }
  by eapply lookup_lt_Some.
Qed.

(** ** Assigner *)

Lemma take_rows_Some vecs pivots :
  Forall (fun p => p < length vecs) pivots →
  ∃ P, take_rows vecs pivots = Some P ∧
       Forall2 (fun p r => vecs !! p = Some r) pivots P.
Proof.
  intros Hall. unfold take_rows.
  destruct (mapM (fun p => vecs !! p) pivots) as [P|] eqn:E.
  - exists P. split; [done|]. by apply mapM_Some.
  - exfalso. eapply mapM_None_1 in E. 
    apply Exists_exists in E as (p & Hp & Hnone).
    rewrite Forall_forall in Hall. specialize (Hall p Hp).
    apply lookup_lt_is_Some_2 in Hall. rewrite Hnone in Hall.
    by destruct Hall.
Qed.

Lemma pick_best_argmax (sims : list (list Q)) :
  Forall (fun r => r ≠ []) sims →
  ∃ bs, pick_best sims (map argmax sims) = Some bs ∧
        Forall2 (fun r s => first_max r (argmax r) s) sims bs.
Proof.
  unfold pick_best. induction 1 as [|r sims Hr _ (bs & Hbs & IH)].
  - exists []. split; [done|constructor].
  - destruct (argmax_spec r Hr) as (v & Hv).
    exists (v :: bs). split; [|by constructor].
    simpl. rewrite (proj1 Hv). simpl. rewrite Hbs. done.
Qed.

(** The assigner on a non-empty list of pivots that are rows of [vecs]. *)
Lemma assign_spec vecs pivots :
  pivots ≠ [] →
  Forall (fun p => p < length vecs) pivots →
  ∃ best dist,
    assign_to_nearest_pivot vecs pivots = Some (best, dist) ∧
    length best = length vecs ∧ length dist = length vecs ∧
    ∀ i v, vecs !! i = Some v →
      ∃ b p pv,
        best !! i = Some b ∧ pivots !! b = Some p ∧ vecs !! p = Some pv ∧
        dist !! i = Some (1 - dot v pv)%Q ∧
        (∀ j q qv, pivots !! j = Some q → vecs !! q = Some qv →
                   (dot v qv <= dot v pv)%Q) ∧
        (∀ j q qv, j < b → pivots !! j = Some q → vecs !! q = Some qv →
                   (dot v qv < dot v pv)%Q).
Proof.
  intros Hne Hall. unfold assign_to_nearest_pivot.
  destruct (decide (length pivots = 0)) as [H0|_].
  { by destruct pivots. }
  destruct (take_rows_Some vecs pivots Hall) as (P & -> & HP).
  simpl. set (sims := map _ vecs).
  assert (P ≠ []) as HPne.
  { apply Forall2_length in HP. destruct P; [|done]. by destruct pivots. }
  destruct (pick_best_argmax sims) as (bs & -> & Hbs).
  { unfold sims. apply Forall_fmap, Forall_forall. intros v _. simpl.
    by destruct P. }
  simpl. eexists _, _. split; [done|].
  pose proof (Forall2_length _ _ _ Hbs) as Hlen.
  unfold sims in Hlen. rewrite length_map in Hlen.
  rewrite !length_map. split_and!;
    [unfold sims; by rewrite length_map|done|].
  intros i v Hi.
  assert (sims !! i = Some (map (fun p => dot v p) P)) as Hsi.
  { unfold sims. by rewrite list_lookup_fmap, Hi. }
  destruct (Forall2_lookup_l _ _ _ _ _ Hbs Hsi) as (s & Hs & Hfm).
  destruct Hfm as (Hb & Hle & Hlt).
  set (b := argmax (map (fun p => dot v p) P)) in *.
  rewrite list_lookup_fmap in Hb.
  apply fmap_Some in Hb as (pv & HPb & ->).
  destruct (Forall2_lookup_r _ _ _ _ _ HP HPb) as (p & Hp & Hvp).
  exists b, p, pv. split_and!.
  - by rewrite list_lookup_fmap, Hsi.
  - done.
  - done.
  - by rewrite list_lookup_fmap, Hs.
  - intros j q qv Hq Hqv.
    destruct (Forall2_lookup_l _ _ _ _ _ HP Hq) as (r & Hr & Hqr).
    assert (r = qv) as -> by congruence.
    apply (Hle j). by rewrite list_lookup_fmap, Hr.
  - intros j q qv Hj Hq Hqv.
    destruct (Forall2_lookup_l _ _ _ _ _ HP Hq) as (r & Hr & Hqr).
    assert (r = qv) as -> by congruence.
    apply (Hlt j); [done|]. by rewrite list_lookup_fmap, Hr.
Qed.

(** ** Min-max normalisation *)

Lemma Qminimum_le_l a b : (Qminimum a b <= a)%Q.
Proof.
  unfold Qminimum. destruct (Qle_bool a b) eqn:E; [lra|].
  destruct (Qlt_le_dec a b) as [H|H]; [|done].
  apply Qlt_le_weak, Qle_bool_iff in H. congruence.
Qed.

Lemma Qminimum_le_r a b : (Qminimum a b <= b)%Q.
Proof.
  unfold Qminimum. destruct (Qle_bool a b) eqn:E; [|lra].
  by apply Qle_bool_iff.
Qed.

Lemma Qmaximum_ge_l a b : (a <= Qmaximum a b)%Q.
Proof.
  unfold Qmaximum. destruct (Qle_bool a b) eqn:E; [|lra].
  by apply Qle_bool_iff.
Qed.

Lemma Qmaximum_ge_r a b : (b <= Qmaximum a b)%Q.
Proof.
  unfold Qmaximum. destruct (Qle_bool a b) eqn:E; [lra|].
  destruct (Qlt_le_dec a b) as [H|H]; [|done].
  apply Qlt_le_weak, Qle_bool_iff in H. congruence.
Qed.

Lemma foldl_Qminimum_le t : ∀ acc,
  (foldl Qminimum acc t <= acc)%Q ∧
  Forall (fun y => (foldl Qminimum acc t <= y)%Q) t.
Proof.
  induction t as [|x t IH]; intros acc; simpl.
  - split; [lra|constructor].
  - destruct (IH (Qminimum acc x)) as [H1 H2].
    pose proof (Qminimum_le_l acc x). pose proof (Qminimum_le_r acc x).
    split; [lra|]. constructor; [lra|done].
Qed.

Lemma foldl_Qmaximum_ge t : ∀ acc,
  (acc <= foldl Qmaximum acc t)%Q ∧
  Forall (fun y => (y <= foldl Qmaximum acc t)%Q) t.
Proof.
  induction t as [|x t IH]; intros acc; simpl.
  - split; [lra|constructor].
  - destruct (IH (Qmaximum acc x)) as [H1 H2].
    pose proof (Qmaximum_ge_l acc x). pose proof (Qmaximum_ge_r acc x).
    split; [lra|]. constructor; [lra|done].
Qed.

Lemma np_min_le x : Forall (fun y => (np_min x <= y)%Q) x.
Proof.
  destruct x as [|x0 t]; [constructor|]. simpl.
  destruct (foldl_Qminimum_le t x0). by constructor.
Qed.

Lemma np_max_ge x : Forall (fun y => (y <= np_max x)%Q) x.
Proof.
  destruct x as [|x0 t]; [constructor|]. simpl.
  destruct (foldl_Qmaximum_ge t x0). by constructor.
Qed.

Lemma length_minmax_norm x : length (minmax_norm x) = length x.
Proof.
  unfold minmax_norm. destruct (decide _); [done|].
  destruct (Qltb _ _); by rewrite length_map.
Qed.

Lemma minmax_norm_in_unit x : Forall in_unit (minmax_norm x).
Proof.
  unfold minmax_norm. destruct (decide _) as [H0|_].
  { destruct x; [constructor|done]. }
  destruct (Qltb _ _) eqn:E.
  - apply Forall_fmap, Forall_forall. intros y _. simpl. split; lra.
  - apply Qltb_false in E.
    pose proof (np_min_le x) as Hlo. pose proof (np_max_ge x) as Hhi.
    rewrite Forall_forall in Hlo, Hhi.
    apply Forall_fmap, Forall_forall. intros y Hy. simpl.
    specialize (Hlo y Hy). specialize (Hhi y Hy).
    assert (0 < np_max x - np_min x)%Q as Hpos.
    { eapply Qlt_le_trans; [|exact E]. reflexivity. }
    split.
    + apply Qle_shift_div_l; [done|]. lra.
    + apply Qle_shift_div_r; [done|]. lra.
Qed.

Lemma minmax_norm_degenerate x :
  (np_max x - np_min x < 1 # 100000000)%Q →
  Forall (fun y => y = 0%Q) (minmax_norm x).
Proof.
  intros Hlt. unfold minmax_norm. destruct (decide _) as [H0|_].
  { destruct x; [constructor|done]. }
  apply Qltb_true in Hlt. rewrite Hlt.
  apply Forall_fmap, Forall_forall. by intros y _.
Qed.

Lemma energy_in_unit a b : in_unit a → in_unit b → in_unit (a * (1 - b))%Q.
Proof.
  intros [Ha0 Ha1] [Hb0 Hb1]. split.
  - apply Qmult_le_0_compat; lra.
  - assert (a * (1 - b) <= 1 * (1 - b))%Q
      by (apply Qmult_le_compat_r; lra).
    lra.
Qed.

(** ** Quantiles and bands *)

Global Instance Qle_total : Total Qle.
Proof.
  intros x y. destruct (Qlt_le_dec x y) as [H|H]; [left|right]; lra.
Qed.

Global Instance Qle_trans_inst : Transitive Qle.
Proof. intros x y z. apply Qle_trans. Qed.

Global Instance Qle_refl_inst : Reflexive Qle.
Proof. intros x. apply Qle_refl. Qed.

Lemma StronglySorted_lookup_le {A} (R : relation A) `{!Reflexive R} l :
  StronglySorted R l →
  ∀ i j x y, i ≤ j → l !! i = Some x → l !! j = Some y → R x y.
Proof.
  induction 1 as [|a l Hs IH Hall]; intros i j x y Hij Hi Hj; [done|].
  destruct i as [|i], j as [|j]; simpl in *; try lia.
  - by simplify_eq.
  - injection Hi as ->. rewrite Forall_forall in Hall. apply Hall.
    by eapply list_elem_of_lookup_2.
  - eapply (IH i j); [lia|done|done].
Qed.

(** The virtual index of a fraction stays inside the array. *)
Lemma virtual_index_bounds (q : Q) (k : nat) :
  is_fraction q →
  (0 <= Qfloor (q * inject_Z (Z.of_nat k)) <= Z.of_nat k)%Z.
Proof.
  intros [Hq0 Hq1].
  assert (0 <= inject_Z (Z.of_nat k))%Q as Hk.
  { change 0%Q with (inject_Z 0). rewrite <- Zle_Qle. lia. }
  split.
  - rewrite <- (Qfloor_Z 0). apply Qfloor_resp_le.
    change (inject_Z 0) with 0%Q. by apply Qmult_le_0_compat.
  - rewrite <- (Qfloor_Z (Z.of_nat k)) at 2. apply Qfloor_resp_le.
    assert (q * inject_Z (Z.of_nat k) <= 1 * inject_Z (Z.of_nat k))%Q
      by (by apply Qmult_le_compat_r).
    lra.
Qed.

Lemma np_quantile_is_Some a q :
  a ≠ [] → is_fraction q → is_Some (np_quantile a q).
Proof.
  intros Ha Hq. unfold np_quantile.
  destruct (decide _) as [_|Hn]; [|by destruct Hn].
  assert (0 < length a) as Hlen by (destruct a; simpl; [done|lia]).
  pose proof (virtual_index_bounds q (length a - 1) Hq) as Hb.
  set (s := merge_sort Qle a).
  assert (length s = length a) as Hs.
  { unfold s. by rewrite merge_sort_Permutation. }
  set (prev := Z.to_nat _) in *.
  destruct (lookup_lt_is_Some_2 s prev) as [lo ->]; [lia|].
  destruct (lookup_lt_is_Some_2 s (Nat.min (prev + 1) (length a - 1)))
    as [hi ->]; [lia|].
  done.
Qed.

Lemma np_quantile_mono a q1 q2 c1 c2 :
  (q1 <= q2)%Q →
  np_quantile a q1 = Some c1 → np_quantile a q2 = Some c2 →
  (c1 <= c2)%Q.
Proof.
  intros Hq. unfold np_quantile.
  destruct (decide _) as [Hf1|]; [|done].
  destruct (decide _) as [Hf2|]; [|done].
  pose proof (virtual_index_bounds q1 (length a - 1) Hf1) as Hb1.
  pose proof (virtual_index_bounds q2 (length a - 1) Hf2) as Hb2.
  set (K := inject_Z (Z.of_nat (length a - 1))) in *.
  assert (0 <= K)%Q as HK.
  { unfold K. change 0%Q with (inject_Z 0). rewrite <- Zle_Qle. lia. }
  assert (q1 * K <= q2 * K)%Q as Hv by (by apply Qmult_le_compat_r).
  pose proof (Qfloor_resp_le _ _ Hv) as Hfl.
  pose proof (Qfloor_le (q1 * K)) as Hl1.
  pose proof (Qlt_floor (q1 * K)) as Hu1.
  pose proof (Qfloor_le (q2 * K)) as Hl2.
  pose proof (Qlt_floor (q2 * K)) as Hu2.
  assert (StronglySorted Qle (merge_sort Qle a)) as Hs
    by (apply StronglySorted_merge_sort; apply _).
  pose proof (StronglySorted_lookup_le Qle _ Hs) as Hmono.
  set (s := merge_sort Qle a) in *.
  set (f1 := Qfloor (q1 * K)) in *. set (f2 := Qfloor (q2 * K)) in *.
  intros H1 H2.
  destruct (s !! Z.to_nat f1) as [lo1|] eqn:Elo1; [|done].
  destruct (s !! Nat.min (Z.to_nat f1 + 1) (length a - 1)) as [hi1|]
    eqn:Ehi1; [|done].
  destruct (s !! Z.to_nat f2) as [lo2|] eqn:Elo2; [|done].
  destruct (s !! Nat.min (Z.to_nat f2 + 1) (length a - 1)) as [hi2|]
    eqn:Ehi2; [|done].
  simpl in H1, H2. injection H1 as <-. injection H2 as <-.
  rewrite inject_Z_plus in Hu1, Hu2. change (inject_Z 1) with 1%Q in *.
  set (g1 := (q1 * K - inject_Z f1)%Q). set (g2 := (q2 * K - inject_Z f2)%Q).
  assert (0 <= g1 ∧ g1 < 1 ∧ 0 <= g2 ∧ g2 < 1)%Q
    as (Hg1 & Hg1' & Hg2 & Hg2')
    by (unfold g1, g2; repeat split; lra).
  assert (lo1 <= hi1)%Q as Hlh1 by (eapply (Hmono _ _ _ _); [|done..]; lia).
  assert (lo2 <= hi2)%Q as Hlh2 by (eapply (Hmono _ _ _ _); [|done..]; lia).
  assert (0 <= (hi2 - lo2) * g2)%Q by (apply Qmult_le_0_compat; lra).
  destruct (decide (f1 = f2)) as [Heq|Hne].
  - rewrite <- Heq in Elo2, Ehi2. simplify_eq.
    assert (g1 <= g2)%Q by (unfold g1, g2; rewrite <- Heq; lra).
    assert ((hi1 - lo1) * g1 <= (hi1 - lo1) * g2)%Q.
    { rewrite !(Qmult_comm (hi1 - lo1)). apply Qmult_le_compat_r; lra. }
    lra.
  - assert (hi1 <= lo2)%Q as Hhl by (eapply (Hmono _ _ _ _); [|done..]; lia).
    assert ((hi1 - lo1) * g1 <= (hi1 - lo1) * 1)%Q.
    { rewrite !(Qmult_comm (hi1 - lo1)). apply Qmult_le_compat_r; lra. }
    lra.
Qed.

Lemma band_of_is_band qs d : is_band qs d (band_of qs d).
Proof.
  unfold band_of.
  destruct (list_find (fun q => (d <= q)%Q) qs) as [[b c]|] eqn:E.
  - apply list_find_Some in E as (Hb & Hc & Hmin). left.
    exists c. split_and!; [done|done|].
    intros j c' Hj Hc'. apply Qnot_le_lt. by eapply Hmin.
  - apply list_find_None in E. right. split; [done|].
    eapply Forall_impl; [exact E|]. intros c Hc. simpl in Hc.
    by apply Qnot_le_lt.
Qed.

Lemma is_band_le_length qs d b : is_band qs d b → b ≤ length qs.
Proof.
  intros [(c & Hc & _)|[-> _]]; [|done].
  apply lookup_lt_Some in Hc. lia.
Qed.

(** Bands never decrease with the distance. *)
Lemma is_band_mono qs d1 d2 b1 b2 :
  (d1 <= d2)%Q → is_band qs d1 b1 → is_band qs d2 b2 → b1 ≤ b2.
Proof.
  intros Hd H1 H2.
  destruct H2 as [(c2 & Hc2 & Hle2 & _)|[-> _]];
    [|by eapply is_band_le_length].
  destruct H1 as [(c1 & Hc1 & _ & Hmin1)|[-> Hall]].
  - destruct (decide (b1 ≤ b2)) as [|Hgt]; [done|].
    assert (c2 < d1)%Q by (eapply Hmin1; [|done]; lia). lra.
  - rewrite Forall_forall in Hall.
    assert (c2 < d1)%Q by (apply Hall; by eapply list_elem_of_lookup_2).
    lra.
Qed.

Lemma quantiles_is_Some dists quantiles :
  dists ≠ [] → Forall is_fraction quantiles →
  ∃ qs, mapM (np_quantile dists) quantiles = Some qs ∧
        length qs = length quantiles.
Proof.
  intros Hd Hq.
  destruct (mapM_is_Some_2 (np_quantile dists) quantiles) as [qs Hqs].
  { eapply Forall_impl; [exact Hq|]. intros q Hfq. simpl.
    by apply np_quantile_is_Some. }
  exists qs. split; [done|]. symmetry. by eapply length_mapM.
Qed.

Lemma quantiles_sorted dists quantiles qs :
  mapM (np_quantile dists) quantiles = Some qs →
  StronglySorted Qle quantiles → StronglySorted Qle qs.
Proof.
  intros Hm Hs. apply mapM_Some in Hm. revert qs Hm.
  induction Hs as [|q quantiles Hs IH Hall]; intros qs Hm.
  - apply Forall2_nil_inv_l in Hm as ->. constructor.
  - apply Forall2_cons_inv_l in Hm as (c & cs & Hc & Hcs & ->).
    constructor; [by apply IH|].
    apply Forall_forall. intros c' Hc'.
    apply list_elem_of_lookup in Hc' as [j Hj].
    destruct (Forall2_lookup_r _ _ _ _ _ Hcs Hj) as (q' & Hq' & Hqc').
    rewrite Forall_forall in Hall.
    eapply (np_quantile_mono dists q q'); [|done|done].
    apply Hall. by eapply list_elem_of_lookup_2.
Qed.

Lemma compute_bands_spec dists quantiles :
  Forall is_fraction quantiles →
  ∃ bands,
    compute_bands_for_pivot dists quantiles = Some bands ∧
    length bands = length dists ∧
    (dists ≠ [] →
     ∃ qs, mapM (np_quantile dists) quantiles = Some qs ∧
           length qs = length quantiles ∧
           bands = map (band_of qs) dists).
Proof.
  intros Hq. unfold compute_bands_for_pivot.
  destruct (decide (length dists = 0)) as [H0|Hn].
  - exists []. destruct dists; [|done]. done.
  - assert (dists ≠ []) as Hne by (by destruct dists).
    destruct (quantiles_is_Some dists quantiles Hne Hq) as (qs & -> & Hlen).
    simpl. eexists. split_and!; [done|by rewrite length_map|].
    intros _. by exists qs.
Qed.

(** ** Redundancy estimator *)

Lemma length_knn_redundancy vecs k :
  length (knn_redundancy vecs k) = length vecs.
Proof.
  unfold knn_redundancy, search.
  destruct (decide (1 < _)); destruct (decide (_ = 0));
    rewrite ?length_replicate, ?length_map; done.
Qed.

Lemma knn_redundancy_singleton v k :
  knn_redundancy [v] k = [Qmean [dot v v]].
Proof.
  unfold knn_redundancy, search. simpl.
  replace (Nat.min (k + 1) 1) with 1 by lia. done.
Qed.

(** ** Main pipeline *)

Lemma length_scatter {A} (mask : list bool) : ∀ (dst src : list A),
  length (scatter mask dst src) = length dst.
Proof.
  induction mask as [|m mask IH]; intros [|d dst] src; simpl; try done.
  destruct m; [destruct src|]; simpl; by rewrite IH.
Qed.

Lemma BAND_QUANTILES_fractions : Forall is_fraction BAND_QUANTILES.
Proof. unfold BAND_QUANTILES, is_fraction. repeat constructor; lra. Qed.

Lemma band_step_Some assign_idx novelty_dist band_ids p_local :
  ∃ band_ids',
    band_step assign_idx novelty_dist (Some band_ids) p_local
      = Some band_ids' ∧
    length band_ids' = length band_ids.
Proof.
  unfold band_step. simpl.
  destruct (compute_bands_spec
              (mask_select
                 (map (fun a => bool_decide (a = p_local)) assign_idx)
                 novelty_dist)
              BAND_QUANTILES BAND_QUANTILES_fractions) as (pb & -> & _).
  simpl. eexists. split; [done|]. apply length_scatter.
Qed.

Lemma band_loop_Some assign_idx novelty_dist ps : ∀ band_ids,
  ∃ band_ids',
    foldl (band_step assign_idx novelty_dist) (Some band_ids) ps
      = Some band_ids' ∧
    length band_ids' = length band_ids.
Proof.
  induction ps as [|p ps IH]; intros band_ids.
  - by exists band_ids.
  - cbn [foldl].
    destruct (band_step_Some assign_idx novelty_dist band_ids p)
      as (b' & -> & Hlen).
    destruct (IH b') as (b'' & -> & Hlen'). exists b''. split; [done|lia].
Qed.

Lemma build_record_Some pivots assign_idx band_ids nn rn en i r :
  build_record pivots assign_idx band_ids nn rn en i = Some r ↔
  ∃ pid_local pid_global b nov red e,
    assign_idx !! i = Some pid_local ∧ pivots !! pid_local = Some pid_global ∧
    band_ids !! i = Some b ∧ nn !! i = Some nov ∧ rn !! i = Some red ∧
    en !! i = Some e ∧
    r = mk_record i pid_global pid_local b nov red e.
Proof.
  unfold build_record. split.
  - intros H.
    destruct (assign_idx !! i) as [pl|] eqn:E1; simpl in H; [|done].
    destruct (pivots !! pl) as [pg|] eqn:E2; simpl in H; [|done].
    destruct (band_ids !! i) as [b|] eqn:E3; simpl in H; [|done].
    destruct (nn !! i) as [nov|] eqn:E4; simpl in H; [|done].
    destruct (rn !! i) as [red|] eqn:E5; simpl in H; [|done].
    destruct (en !! i) as [e|] eqn:E6; simpl in H; [|done].
    injection H as <-. by exists pl, pg, b, nov, red, e.
  - intros (pl & pg & b & nov & red & e & -> & H2 & -> & -> & -> & -> & ->).
    simpl. rewrite H2. done.
Qed.

(** The sort order is a total preorder. *)
Global Instance row_le_total : Total row_le.
Proof.
  intros r1 r2. unfold row_le.
  destruct (Qle_total (energy r1) (energy r2)); 
  destruct (lt_eq_lt_dec (pivot_local_index r1) (pivot_local_index r2))
    as [[?|?]|?];
  destruct (lt_eq_lt_dec (band r1) (band r2)) as [[?|?]|?];
  intuition lia.
Qed.

Global Instance row_le_trans : Transitive row_le.
Proof.
  intros r1 r2 r3. unfold row_le.
  intros [H1|[H1 [H1'|[H1' H1'']]]] [H2|[H2 [H2'|[H2' H2'']]]];
    try (left; lia); right; (split; [lia|]);
    try (left; lia); right; (split; [lia|]).
  by etrans.
Qed.

Lemma greedy_farthest_pivots_spec vecs max_pivots rng :
  0 < length vecs →
  let sel := greedy_selection vecs max_pivots rng in
  let ps := greedy_farthest_pivots vecs max_pivots rng in
  ps ≡ₚ sel ∧ StronglySorted lt ps ∧ NoDup ps ∧
  Forall (fun p => p < length vecs) ps ∧ 1 ≤ length ps ∧
  ((1 ≤ max_pivots)%Z →
   Z.of_nat (length ps) = Z.min max_pivots (Z.of_nat (length vecs))).
Proof.
  intros Hn sel ps.
  destruct (greedy_selection_spec vecs max_pivots rng Hn)
    as ((Hnd & Hall) & Hlen & Hcount).
  assert (ps = sorted_set sel) as Hps.
  { unfold ps, greedy_farthest_pivots.
    destruct (decide (length vecs = 0)); [lia|done]. }
  assert (ps ≡ₚ sel) as Hperm by (rewrite Hps; by apply sorted_set_perm).
  split_and!.
  - done.
  - rewrite Hps. apply sorted_set_sorted.
  - by rewrite Hperm.
  - by rewrite Hperm.
  - by rewrite Hperm.
  - rewrite Hperm. done.
Qed.

(** [process_file] returns on every non-empty corpus, and its records are
    the ones [build_record] makes from the intermediate arrays. *)
Lemma process_file_spec vecs rng :
  0 < length vecs →
  let pivots :=
    greedy_farthest_pivots vecs
      (Z.min NUM_PIVOTS (Z.max 1 (Z.sqrt_up (Z.of_nat (length vecs))))) rng in
  ∃ out assign_idx novelty_dist band_ids,
    process_file vecs rng = Some out ∧
    assign_to_nearest_pivot vecs pivots = Some (assign_idx, novelty_dist) ∧
    foldl (band_step assign_idx novelty_dist)
      (Some (replicate (length vecs) 0)) (seq 0 (length pivots))
      = Some band_ids ∧
    (length assign_idx = length vecs ∧ length novelty_dist = length vecs ∧
     length band_ids = length vecs) ∧
    pivots_json out = pivots ∧
    df out = merge_sort row_le (structured_dataset_jsonl out) ∧
    train_csv out = map (fun r => (id r, pivot_local_index r)) (df out) ∧
    length (structured_dataset_jsonl out) = length vecs ∧
    ∀ i r, structured_dataset_jsonl out !! i = Some r →
      build_record pivots assign_idx band_ids (minmax_norm novelty_dist)
        (minmax_norm (knn_redundancy vecs KNN))
        (zip_with (fun a b => (a * (1 - b))%Q) (minmax_norm novelty_dist)
           (minmax_norm (knn_redundancy vecs KNN))) i = Some r.
Proof.
  intros Hn pivots.
  destruct (greedy_farthest_pivots_spec vecs
              (Z.min NUM_PIVOTS (Z.max 1 (Z.sqrt_up (Z.of_nat (length vecs)))))
              rng Hn) as (_ & _ & _ & Hrange & Hlen & _).
  fold pivots in Hrange, Hlen.
  destruct (assign_spec vecs pivots) as (best & dist & Has & Hlb & Hld & Hi).
  { destruct pivots; simpl in *; [lia|done]. }
  { done. }
  destruct (band_loop_Some best dist (seq 0 (length pivots))
              (replicate (length vecs) 0)) as (band_ids & Hbands & Hlbands).
  rewrite length_replicate in Hlbands.
  set (nn := minmax_norm dist).
  set (rn := minmax_norm (knn_redundancy vecs KNN)).
  set (en := zip_with (fun a b => (a * (1 - b))%Q) nn rn).
  destruct (mapM_is_Some_2
              (build_record pivots best band_ids nn rn en)
              (seq 0 (length vecs))) as [records Hrecs].
  { apply Forall_forall. intros i Hi'. apply elem_of_seq in Hi'. simpl.
    destruct (lookup_lt_is_Some_2 vecs i) as [v Hv]; [lia|].
    destruct (Hi i v Hv) as (b & p & pv & Hb & Hp & _).
    destruct (lookup_lt_is_Some_2 band_ids i) as [bd Hbd]; [lia|].
    destruct (lookup_lt_is_Some_2 nn i) as [nov Hnov].
    { unfold nn. rewrite length_minmax_norm. lia. }
    destruct (lookup_lt_is_Some_2 rn i) as [red Hred].
    { unfold rn. rewrite length_minmax_norm, length_knn_redundancy. lia. }
    destruct (lookup_lt_is_Some_2 en i) as [e He].
    { unfold en, nn, rn.
      rewrite length_zip_with, !length_minmax_norm, length_knn_redundancy.
      lia. }
    eexists. apply build_record_Some. by exists b, p, bd, nov, red, e. }
  exists (mk_outputs pivots records (merge_sort row_le records)
            (map (fun r => (id r, pivot_local_index r))
               (merge_sort row_le records))), best, dist, band_ids.
  split_and!; try done.
  - unfold process_file. fold pivots. rewrite Has. simpl.
    rewrite Hbands. simpl. fold nn rn en. rewrite Hrecs. done.
  - simpl. apply length_mapM in Hrecs. by rewrite length_seq in Hrecs.
  - simpl. intros i r Hr. apply mapM_Some in Hrecs.
    destruct (Forall2_lookup_r _ _ _ _ _ Hrecs Hr) as (i' & Hi' & Hb).
    apply lookup_seq in Hi' as [-> _]. done.
Qed.

(** ** Bands inside the pipeline *)

Lemma scatter_lookup_false {A} (mask : list bool) : ∀ (dst src : list A) i,
  mask !! i = Some false → scatter mask dst src !! i = dst !! i.
Proof.
  induction mask as [|m mask IH]; intros [|d dst] src [|i] Hm;
    simpl in *; try done.
  - injection Hm as ->. done.
  - destruct m; [destruct src|]; simpl; by apply IH.
Qed.

Lemma scatter_lookup_true {A B} (f : A → B) (mask : list bool) :
  ∀ (dst : list B) (arr : list A) i a d,
  mask !! i = Some true → arr !! i = Some a → dst !! i = Some d →
  scatter mask dst (map f (mask_select mask arr)) !! i = Some (f a).
Proof.
  induction mask as [|m mask IH]; intros [|d0 dst] [|a0 arr] [|i] a d Hm Ha Hd;
    simpl in *; try done.
  - injection Hm as ->. injection Ha as ->. done.
  - destruct m; simpl; by eapply IH.
Qed.

Lemma mask_select_nonempty {A} (mask : list bool) : ∀ (arr : list A) i a,
  mask !! i = Some true → arr !! i = Some a → mask_select mask arr ≠ [].
Proof.
  induction mask as [|m mask IH]; intros [|a0 arr] [|i] a Hm Ha;
    simpl in *; try done.
  - injection Hm as ->. done.
  - destruct m; [done|]. by eapply IH.
Qed.

Lemma band_step_lookup assign_idx novelty_dist band_ids band_ids' p :
  band_step assign_idx novelty_dist (Some band_ids) p = Some band_ids' →
  ∀ i ai di bi,
    assign_idx !! i = Some ai → novelty_dist !! i = Some di →
    band_ids !! i = Some bi →
    band_ids' !! i =
      Some (if bool_decide (ai = p)
            then band_of (group_cutpoints assign_idx novelty_dist p) di
            else bi).
Proof.
  intros Hstep i ai di bi Hai Hdi Hbi. unfold band_step in Hstep.
  apply bind_Some in Hstep as (b0 & [= <-] & Hstep).
  apply bind_Some in Hstep as (pbands & Hpb & [= <-]).
  unfold group_cutpoints, group_dists.
  set (mask := map (fun a => bool_decide (a = p)) assign_idx) in *.
  assert (mask !! i = Some (bool_decide (ai = p))) as Hmi.
  { unfold mask. by rewrite list_lookup_fmap, Hai. }
  destruct (compute_bands_spec (mask_select mask novelty_dist)
              BAND_QUANTILES BAND_QUANTILES_fractions)
    as (pbands' & Hpb' & _ & Hqs).
  rewrite Hpb in Hpb'. injection Hpb' as <-.
  case_bool_decide as Hp.
  - destruct Hqs as (qs & -> & _ & ->); [by eapply mask_select_nonempty|].
    simpl. by eapply scatter_lookup_true.
  - rewrite scatter_lookup_false; done.
Qed.

Lemma band_loop_lookup assign_idx novelty_dist ps : ∀ band_ids band_ids',
  NoDup ps →
  foldl (band_step assign_idx novelty_dist) (Some band_ids) ps
    = Some band_ids' →
  ∀ i ai di bi,
    assign_idx !! i = Some ai → novelty_dist !! i = Some di →
    band_ids !! i = Some bi →
    band_ids' !! i =
      Some (if bool_decide (ai ∈ ps)
            then band_of (group_cutpoints assign_idx novelty_dist ai) di
            else bi).
Proof.
  induction ps as [|p ps IH]; intros b b' Hnd Hfold i ai di bi Hai Hdi Hbi.
  - simpl in Hfold. injection Hfold as <-.
    rewrite bool_decide_eq_false_2; [done|]. apply not_elem_of_nil.
  - cbn [foldl] in Hfold. apply NoDup_cons in Hnd as [Hp Hnd].
    destruct (band_step_Some assign_idx novelty_dist b p) as (b1 & Hb1 & _).
    rewrite Hb1 in Hfold.
    pose proof (band_step_lookup _ _ _ _ _ Hb1 i ai di bi Hai Hdi Hbi) as H1.
    rewrite (IH b1 b' Hnd Hfold i ai di _ Hai Hdi H1).
    f_equal. repeat case_bool_decide; subst; try done; exfalso;
      match goal with
      | H : _ ∉ _ :: _ |- _ => apply not_elem_of_cons in H as [? ?]; done
      | H : _ ∈ _ :: _ |- _ => apply elem_of_cons in H as [?|?]; done
      end.
Qed.

(** The band of every record is the band of the chunk's distance for the
    cut-points of its pivot group. *)
Lemma process_file_bands vecs rng out assign_idx novelty_dist :
  0 < length vecs →
  process_file vecs rng = Some out →
  assign_to_nearest_pivot vecs (pivots_json out)
    = Some (assign_idx, novelty_dist) →
  ∀ r, r ∈ structured_dataset_jsonl out →
    ∃ d, novelty_dist !! id r = Some d ∧
         assign_idx !! id r = Some (pivot_local_index r) ∧
         band r = band_of
                    (group_cutpoints assign_idx novelty_dist
                       (pivot_local_index r)) d.
Proof.
  intros Hn Hout Has r Hr.
  destruct (process_file_spec vecs rng Hn) as
    (out' & a & nd & bands & Hout' & Has' & Hfold & (Hla & Hlnd & Hlb) & Hpiv
     & _ & _ & Hlen & Hrec).
  assert (out' = out) as -> by congruence.
  rewrite Hpiv, Has' in Has. assert (a = assign_idx) as -> by congruence.
  assert (nd = novelty_dist) as -> by congruence.
  apply list_elem_of_lookup in Hr as [i Hi].
  apply Hrec in Hi. apply build_record_Some in Hi.
  destruct Hi as (pl & pg & b & nov & red & e & Hpl & Hpg & Hb & _ & _ & _
                  & Hr).
  subst r. simpl. destruct (lookup_lt_is_Some_2 novelty_dist i) as [d Hd].
  { apply lookup_lt_Some in Hpl. lia. }
  exists d. split_and!; [done|done|].
  assert (replicate (length vecs) 0 !! i = Some 0) as Hz.
  { apply lookup_replicate. split; [done|].
    apply lookup_lt_Some in Hpl. lia. }
  pose proof (band_loop_lookup assign_idx novelty_dist _ _ _
                (NoDup_seq 0 _) Hfold
                i pl d 0 Hpl Hd Hz) as Hbi.
  rewrite Hb in Hbi. injection Hbi as ->.
  rewrite bool_decide_eq_true_2; [done|].
  apply elem_of_seq. apply lookup_lt_Some in Hpg. lia.
Qed.

(** * The claims *)

(** ** Claims about the pivot selector *)

(** C9: on the empty corpus the pivot selector returns the empty list, for
    every [max_pivots] and every state of the random source. *)
Theorem pivot_selector_empty_corpus (max_pivots : Z) (rng : list nat) :
  greedy_farthest_pivots [] max_pivots rng = [].
Proof. reflexivity. Qed.

(** C4: for a corpus of [N >= 1] vectors and [max_pivots >= 1] the pivot
    selector returns a duplicate-free list of indices below [N], of length
    between 1 and [min(max_pivots, N)]; and [process_file] ends up with
    exactly [min(NUM_PIVOTS, ceil(sqrt(N)))] pivots. *)
Theorem pivot_selector_count_and_range
    (vecs : matrix) (max_pivots : Z) (rng : list nat) :
  1 ≤ length vecs → (1 ≤ max_pivots)%Z →
  let ps := greedy_farthest_pivots vecs max_pivots rng in
  NoDup ps ∧
  Forall (fun p => p < length vecs) ps ∧
  1 ≤ length ps ∧
  (Z.of_nat (length ps) ≤ Z.min max_pivots (Z.of_nat (length vecs)))%Z ∧
  ∃ out, process_file vecs rng = Some out ∧
         Z.of_nat (length (pivots_json out))
         = Z.min NUM_PIVOTS (Z.sqrt_up (Z.of_nat (length vecs))).
Proof.
  intros Hn Hmp ps.
  destruct (greedy_farthest_pivots_spec vecs max_pivots rng)
    as (_ & _ & Hnd & Hrange & Hlen & Hcount); [lia|].
  fold ps in Hnd, Hrange, Hlen, Hcount.
  split_and!; [done|done|done|rewrite Hcount; [lia|done]|].
  destruct (process_file_spec vecs rng) as
    (out & _ & _ & _ & Hout & _ & _ & _ & Hpiv & _); [lia|].
  exists out. split; [done|]. rewrite Hpiv.
  destruct (greedy_farthest_pivots_spec vecs
              (Z.min NUM_PIVOTS (Z.max 1 (Z.sqrt_up (Z.of_nat (length vecs)))))
              rng) as (_ & _ & _ & _ & _ & Hc); [lia|].
  assert (0 < Z.sqrt_up (Z.of_nat (length vecs)))%Z
    by (apply Z.sqrt_up_pos; lia).
  assert (Z.sqrt_up (Z.of_nat (length vecs)) ≤ Z.of_nat (length vecs))%Z
    by (apply Z.sqrt_up_le_lin; lia).
  rewrite Hc; unfold NUM_PIVOTS; lia.
Qed.

Lemma pivot_selector_count_and_range_witness :
  1 ≤ length example_corpus ∧ (1 ≤ 2)%Z ∧
  NoDup (greedy_farthest_pivots example_corpus 2 []).
Proof.
  split; [simpl; lia|]. split; [lia|].
  apply (pivot_selector_count_and_range example_corpus 2 []);
    [simpl; lia|lia].
Defined.




(** ** Claims about the assigner *)

(** C10: with an empty pivot list the assigner returns an empty assignment
    array and an empty distance array, whatever the matrix. *)
Theorem assigner_empty_pivots (vecs : matrix) :
  assign_to_nearest_pivot vecs [] = Some ([], []).
Proof. reflexivity. Qed.

(** C5: for a non-empty list of pivots (indices of rows of [vecs]) the
    assigner returns one assignment and one distance for every chunk; the
    assigned pivot has the largest similarity to the chunk, every pivot
    with a smaller local index has a strictly smaller similarity, and the
    distance is one minus that largest similarity. *)
Theorem assigner_picks_first_argmax (vecs : matrix) (pivots : list nat) :
  pivots ≠ [] →
  Forall (fun p => p < length vecs) pivots →
  ∃ best dist,
    assign_to_nearest_pivot vecs pivots = Some (best, dist) ∧
    length best = length vecs ∧ length dist = length vecs ∧
    ∀ i v, vecs !! i = Some v →
      ∃ b p pv,
        best !! i = Some b ∧ pivots !! b = Some p ∧ vecs !! p = Some pv ∧
        dist !! i = Some (1 - dot v pv)%Q ∧
        (∀ j q qv, pivots !! j = Some q → vecs !! q = Some qv →
                   (dot v qv <= dot v pv)%Q) ∧
        (∀ j q qv, j < b → pivots !! j = Some q → vecs !! q = Some qv →
                   (dot v qv < dot v pv)%Q).
Proof. apply assign_spec. Qed.

Lemma assigner_picks_first_argmax_witness :
  [1; 2] ≠ [] ∧ Forall (fun p => p < length example_corpus) [1; 2] ∧
  ∃ best dist,
    assign_to_nearest_pivot example_corpus [1; 2] = Some (best, dist) ∧
    length best = 3.
Proof.
  assert (Forall (fun p => p < length example_corpus) [1; 2]) as Hr
    by (repeat constructor).
  split; [done|]. split; [exact Hr|].
  destruct (assigner_picks_first_argmax example_corpus [1; 2])
    as (best & dist & H1 & H2 & _); [done|exact Hr|].
  by exists best, dist.
Defined.

(** ** Claims about the redundancy estimator *)

Lemma Qmean_singleton (x : Q) : (Qmean [x] == x)%Q.
Proof. unfold Qmean, Qsum. simpl. field. Qed.

(** On a corpus of one vector the search returns a single column, the
    match of the vector with itself; the guard [sims.shape[1] > 1] is false,
    so that column is not dropped, and the raw redundancy of the only chunk
    is its similarity to itself; min-max normalisation then maps it to 0.
    The fallback [np.zeros] of the source is not reached. *)
Lemma knn_redundancy_single_is_self_similarity (v : vec) (k : nat) :
  ∃ r, knn_redundancy [v] k = [r] ∧
       (r == dot v v)%Q ∧
       ((dot v v == 1)%Q → (r == 1)%Q) ∧
       minmax_norm (knn_redundancy [v] k) = [0%Q].
Proof.
  exists (Qmean [dot v v]). rewrite knn_redundancy_singleton.
  pose proof (Qmean_singleton (dot v v)) as Hm.
  split_and!; [done|done|intros H; lra|].
  unfold minmax_norm. simpl.
  assert (Qltb (Qmean [dot v v] - Qmean [dot v v]) (1 # 100000000) = true)
    as -> by (apply Qltb_true; lra).
  done.
Qed.

(** C2: the code departs from the claim, and from its own comments
    ("excluding self", "drop self"), on a corpus of one chunk.  For the
    single vector [(1, 0)] and the configured [KNN], [knn_redundancy]
    returns one value, the similarity 1 of the chunk to itself, where the
    claim asks for the raw value 0. *)
Theorem knn_redundancy_single_not_zero :
  ∃ r, knn_redundancy [[1; 0]%Q] KNN = [r] ∧
       (r == dot [1; 0] [1; 0])%Q ∧ (r == 1)%Q ∧ ¬ (r == 0)%Q.
Proof.
  exists 1%Q. split_and!; [reflexivity|reflexivity|reflexivity|].
  intros H. discriminate H.
Qed.

(** ** Claims about the bands *)

(** C6: for quantile fractions in [[0, 1]] the bands of a pivot group are
    computed, one per distance; a strictly smaller distance never gets a
    larger band; for a non-empty group each band is the smallest index whose
    cut-point is not below the distance, or the number of cut-points when
    the distance exceeds them all; ascending fractions give ascending
    cut-points.  In the records of [process_file], two chunks assigned to the
    same pivot have bands in the order of their residual distances. *)
Theorem bands_monotone_in_distance
    (dists quantiles : list Q) (vecs : matrix) (rng : list nat) :
  Forall is_fraction quantiles →
  1 ≤ length vecs →
  (∃ bands,
     compute_bands_for_pivot dists quantiles = Some bands ∧
     length bands = length dists ∧
     (∀ i j dA dB bA bB,
        dists !! i = Some dA → dists !! j = Some dB →
        bands !! i = Some bA → bands !! j = Some bB →
        (dA < dB)%Q → bA ≤ bB) ∧
     (dists ≠ [] →
      ∃ qs, mapM (np_quantile dists) quantiles = Some qs ∧
            length qs = length quantiles ∧
            (StronglySorted Qle quantiles → StronglySorted Qle qs) ∧
            ∀ i d b, dists !! i = Some d → bands !! i = Some b →
                     is_band qs d b)) ∧
  (∃ out assign_idx novelty_dist,
     process_file vecs rng = Some out ∧
     assign_to_nearest_pivot vecs (pivots_json out)
       = Some (assign_idx, novelty_dist) ∧
     ∀ rA rB dA dB,
       rA ∈ structured_dataset_jsonl out →
       rB ∈ structured_dataset_jsonl out →
       pivot_local_index rA = pivot_local_index rB →
       novelty_dist !! id rA = Some dA → novelty_dist !! id rB = Some dB →
       (dA < dB)%Q → band rA ≤ band rB).
Proof.
  intros Hq Hn. split.
  - destruct (compute_bands_spec dists quantiles Hq)
      as (bands & Hb & Hlen & Hqs).
    exists bands. split_and!; [done|done| |].
    + intros i j dA dB bA bB HdA HdB HbA HbB Hlt.
      destruct Hqs as (qs & _ & _ & ->).
      { intros ->. done. }
      rewrite list_lookup_fmap, HdA in HbA.
      rewrite list_lookup_fmap, HdB in HbB.
      simpl in HbA, HbB. injection HbA as <-. injection HbB as <-.
      eapply (is_band_mono qs dA dB); [lra|apply band_of_is_band..].
    + intros Hne. destruct (Hqs Hne) as (qs & Hm & Hl & ->).
      exists qs.
      split_and!; [done|done|by apply (quantiles_sorted dists)|].
      intros i d b Hd Hb'. rewrite list_lookup_fmap, Hd in Hb'.
      simpl in Hb'. injection Hb' as <-. apply band_of_is_band.
  - destruct (process_file_spec vecs rng) as
      (out & a & nd & bands & Hout & Has & _ & _ & Hpiv & _); [lia|].
    exists out, a, nd. rewrite Hpiv. split_and!; [done|done|].
    intros rA rB dA dB HrA HrB Hsame HdA HdB Hlt.
    rewrite <- Hpiv in Has.
    destruct (process_file_bands vecs rng out a nd ltac:(lia) Hout Has
                rA HrA) as (dA' & HdA' & _ & ->).
    destruct (process_file_bands vecs rng out a nd ltac:(lia) Hout Has
                rB HrB) as (dB' & HdB' & _ & ->).
    assert (dA' = dA) as -> by congruence.
    assert (dB' = dB) as -> by congruence.
    rewrite Hsame.
    eapply (is_band_mono _ dA dB); [lra|apply band_of_is_band..].
Qed.

Lemma bands_monotone_in_distance_witness :
  Forall is_fraction BAND_QUANTILES ∧ 1 ≤ length example_corpus ∧
  ∃ bands, compute_bands_for_pivot [2 # 5; 0]%Q BAND_QUANTILES = Some bands ∧
           length bands = 2.
Proof.
  split; [apply BAND_QUANTILES_fractions|]. split; [simpl; lia|].
  destruct (bands_monotone_in_distance [2 # 5; 0]%Q BAND_QUANTILES
              example_corpus [] BAND_QUANTILES_fractions)
    as ((bands & H1 & H2 & _) & _); [simpl; lia|].
  by exists bands.
Defined.

(** ** Claims about the scores and the record sequence *)

(** C7: min-max normalisation maps every array into [[0, 1]] and maps an
    array whose maximum and minimum are less than [1e-8] apart to zeros; and
    on a non-empty corpus [process_file] returns records whose novelty,
    redundancy and energy lie in [[0, 1]], the energy being
    [novelty * (1 - redundancy)]. *)
Theorem scores_in_unit_interval
    (vecs : matrix) (rng : list nat) (x : list Q) :
  1 ≤ length vecs →
  Forall in_unit (minmax_norm x) ∧
  ((np_max x - np_min x < 1 # 100000000)%Q →
   Forall (fun y => y = 0%Q) (minmax_norm x)) ∧
  ∃ out assign_idx novelty_dist,
    process_file vecs rng = Some out ∧
    assign_to_nearest_pivot vecs (pivots_json out)
      = Some (assign_idx, novelty_dist) ∧
    map novelty (structured_dataset_jsonl out) = minmax_norm novelty_dist ∧
    map redundancy (structured_dataset_jsonl out)
      = minmax_norm (knn_redundancy vecs KNN) ∧
    Forall (fun r => in_unit (novelty r) ∧ in_unit (redundancy r) ∧
                     in_unit (energy r) ∧
                     energy r = (novelty r * (1 - redundancy r))%Q)
      (structured_dataset_jsonl out).
Proof.
  intros Hn. split; [apply minmax_norm_in_unit|].
  split; [apply minmax_norm_degenerate|].
  destruct (process_file_spec vecs rng) as
    (out & a & nd & bands & Hout & Has & _ & (_ & Hlnd & _) & Hpiv & _ & _ & Hlen
     & Hrec);
    [lia|].
  exists out, a, nd. rewrite Hpiv.
  set (nn := minmax_norm nd) in *.
  set (rn := minmax_norm (knn_redundancy vecs KNN)) in *.
  assert (length nn = length vecs) as Hlnn.
  { unfold nn. by rewrite length_minmax_norm. }
  assert (length rn = length vecs) as Hlrn.
  { unfold rn. by rewrite length_minmax_norm, length_knn_redundancy. }
  split_and!; [done|done| | |].
  - apply list_eq_same_length with (length vecs);
      [done|by rewrite length_map|].
    intros i y1 y2 Hi H1 H2. rewrite list_lookup_fmap in H1.
    apply fmap_Some in H1 as (r & Hr & ->).
    apply Hrec, build_record_Some in Hr
      as (pl & pg & b & nov & red & e & _ & _ & _ & Hnov & _ & _ & ->).
    simpl. congruence.
  - apply list_eq_same_length with (length vecs);
      [done|by rewrite length_map|].
    intros i y1 y2 Hi H1 H2. rewrite list_lookup_fmap in H1.
    apply fmap_Some in H1 as (r & Hr & ->).
    apply Hrec, build_record_Some in Hr
      as (pl & pg & b & nov & red & e & _ & _ & _ & _ & Hred & _ & ->).
    simpl. congruence.
  - apply Forall_forall. intros r Hr.
    apply list_elem_of_lookup in Hr as [i Hi].
    apply Hrec, build_record_Some in Hi
      as (pl & pg & b & nov & red & e & _ & _ & _ & Hnov & Hred & He & ->).
    simpl.
    assert (in_unit nov) as Hun.
    { pose proof (minmax_norm_in_unit nd) as Hall.
      rewrite Forall_forall in Hall. apply Hall.
      by eapply list_elem_of_lookup_2. }
    assert (in_unit red) as Hur.
    { pose proof (minmax_norm_in_unit (knn_redundancy vecs KNN)) as Hall.
      rewrite Forall_forall in Hall. apply Hall.
      by eapply list_elem_of_lookup_2. }
    apply lookup_zip_with_Some in He as (a' & b' & -> & Ha' & Hb').
    assert (a' = nov) as -> by congruence.
    assert (b' = red) as -> by congruence.
    split_and!; [done|done|by apply energy_in_unit|done].
Qed.

Lemma scores_in_unit_interval_witness :
  1 ≤ length example_corpus ∧
  Forall in_unit (minmax_norm [1; 1]%Q).
Proof.
  split; [simpl; lia|].
  apply (scores_in_unit_interval example_corpus [] [1; 1]%Q). simpl; lia.
Defined.

(** C3, as the code has it: on a non-empty corpus the sorted DataFrame,
    from which the (text, label) rows of the CSV export are taken, holds the
    records in ascending order of pivot local index, then band, then
    descending energy; the line-delimited JSON export holds the same records
    in ascending order of chunk id. *)
Theorem dataframe_sorted_jsonl_by_id (vecs : matrix) (rng : list nat) :
  1 ≤ length vecs →
  ∃ out,
    process_file vecs rng = Some out ∧
    StronglySorted row_le (df out) ∧
    df out ≡ₚ structured_dataset_jsonl out ∧
    train_csv out = map (fun r => (id r, pivot_local_index r)) (df out) ∧
    map id (structured_dataset_jsonl out) = seq 0 (length vecs).
Proof.
  intros Hn.
  destruct (process_file_spec vecs rng) as
    (out & a & nd & bands & Hout & _ & _ & _ & _ & Hdf & Hcsv & Hlen & Hrec);
    [lia|].
  exists out. split_and!; [done| | |done|].
  - rewrite Hdf. apply StronglySorted_merge_sort; apply _.
  - rewrite Hdf. apply merge_sort_Permutation.
  - apply list_eq_same_length with (length vecs);
      [by rewrite length_seq|by rewrite length_map|].
    intros i y1 y2 Hi H1 H2. rewrite list_lookup_fmap in H1.
    apply fmap_Some in H1 as (r & Hr & ->).
    apply Hrec, build_record_Some in Hr
      as (pl & pg & b & nov & red & e & _ & _ & _ & _ & _ & _ & ->).
    simpl. apply lookup_seq in H2 as [-> _]. done.
Qed.

Lemma dataframe_sorted_jsonl_by_id_witness :
  1 ≤ length example_corpus ∧
  ∃ out, process_file example_corpus [] = Some out ∧
         StronglySorted row_le (df out).
Proof.
  split; [simpl; lia|].
  destruct (dataframe_sorted_jsonl_by_id example_corpus [])
    as (out & H1 & H2 & _); [simpl; lia|].
  by exists out.
Defined.

(** C3, as stated, fails: on [example_corpus] the records written to the
    line-delimited JSON export start with chunk 0 in band 3 followed by
    chunk 1 in band 0, both of pivot 0. *)
Lemma jsonl_export_not_sorted :
  1 ≤ length example_corpus ∧
  ∃ out, process_file example_corpus [] = Some out ∧
         ¬ Sorted row_le (structured_dataset_jsonl out).
Proof.
  split; [simpl; lia|].
  destruct (process_file example_corpus []) as [out|] eqn:E;
    [|vm_compute in E; discriminate].
  exists out. split; [done|]. vm_compute in E. injection E as <-.
  simpl. intros Hs. apply Sorted_inv in Hs as [_ Hhd].
  apply HdRel_inv in Hhd. unfold row_le in Hhd. simpl in Hhd. lia.
Qed.

(** * Further properties

    Properties of the engine and of the chunker beyond the claims. *)

(** ** Further properties of the pivot selector *)

Lemma argmin_from_spec l : ∀ pre i best bv,
  i = length pre →
  first_min pre best bv →
  ∃ v, first_min (pre ++ l) (argmin_from i best bv l) v.
Proof.
  induction l as [|x t IH]; intros pre i best bv Hi Hfm; simpl.
  - exists bv. by rewrite app_nil_r.
  - destruct Hfm as (Hb & Hle & Hlt).
    replace (pre ++ x :: t) with ((pre ++ [x]) ++ t)
      by (by rewrite <- app_assoc).
    assert (S i = length (pre ++ [x])) as HSi
      by (rewrite length_app; simpl; lia).
    destruct (Qltb x bv) eqn:E.
    + apply Qltb_true in E. apply IH; [done|]. split_and!.
      * subst i. by rewrite lookup_app_r, Nat.sub_diag.
      * intros j y Hj. apply lookup_app_Some in Hj as [Hj|[_ Hj]].
        -- apply Qlt_le_weak. eapply Qlt_le_trans; [done|by eapply Hle].
        -- apply list_lookup_singleton_Some in Hj as [_ <-]. apply Qle_refl.
      * intros j y Hjlt Hj. rewrite lookup_app_l in Hj by lia.
        eapply Qlt_le_trans; [done|by eapply Hle].
    + apply Qltb_false in E. apply IH; [done|]. split_and!.
      * apply lookup_app_l_Some. done.
      * intros j y Hj. apply lookup_app_Some in Hj as [Hj|[_ Hj]].
        -- by eapply Hle.
        -- apply list_lookup_singleton_Some in Hj as [_ <-]. done.
      * intros j y Hjlt Hj. apply lookup_lt_Some in Hb.
        rewrite lookup_app_l in Hj by lia. by eapply Hlt.
Qed.

Lemma argmin_spec l : l ≠ [] → ∃ v, first_min l (argmin l) v.
Proof.
  destruct l as [|x t]; [done|]. intros _. simpl.
  apply (argmin_from_spec t [x] 1 0 x); [done|]. split_and!; [done| |].
  - intros j y Hj. apply list_lookup_singleton_Some in Hj as [_ <-].
    apply Qle_refl.
  - intros j y Hj. lia.
Qed.

Lemma nearest_sim_from_snoc vecs picks : ∀ ns p,
  nearest_sim_from vecs ns (picks ++ [p])
  = maximum (nearest_sim_from vecs ns picks) (matvec vecs (row vecs p)).
Proof.
  induction picks as [|q picks IH]; intros ns p; simpl; [done|apply IH].
Qed.

Lemma nearest_sim_of_snoc vecs pivots p :
  pivots ≠ [] →
  nearest_sim_of vecs (pivots ++ [p])
  = maximum (nearest_sim_of vecs pivots) (matvec vecs (row vecs p)).
Proof.
  destruct pivots as [|seed picks]; [done|]. intros _. simpl.
  apply nearest_sim_from_snoc.
Qed.

Lemma length_nearest_sim_of vecs pivots :
  pivots ≠ [] → length (nearest_sim_of vecs pivots) = length vecs.
Proof.
  induction pivots as [|p pivots IH] using rev_ind; [done|]. intros _.
  destruct pivots as [|seed picks].
  - simpl. apply length_matvec.
  - rewrite nearest_sim_of_snoc by done.
    rewrite length_maximum; [by apply IH|].
    rewrite length_matvec. by apply IH.
Qed.

Lemma fps_loop_prefix vecs iters : ∀ pivots ns rng,
  pivots `prefix_of` fps_loop vecs iters pivots ns rng.
Proof.
  induction iters as [|k IH]; intros pivots ns rng; simpl; [done|].
  case_bool_decide.
  - destruct (filter _ _); [done|].
    destruct (random_choice _ _) as [pick' rng'].
    etrans; [|apply IH]. by apply prefix_app_r.
  - etrans; [|apply IH]. by apply prefix_app_r.
Qed.

Lemma prefix_snoc_lookup {A} (l r : list A) x :
  (l ++ [x]) `prefix_of` r → r !! length l = Some x ∧ take (length l) r = l.
Proof.
  intros [t ->]. rewrite <- app_assoc. split.
  - rewrite lookup_app_r by lia. by rewrite Nat.sub_diag.
  - by rewrite take_app_length.
Qed.

Lemma fps_loop_steps vecs iters : ∀ pivots rng,
  pivots ≠ [] →
  let r := fps_loop vecs iters pivots (nearest_sim_of vecs pivots) rng in
  ∀ k pick, length pivots ≤ k → r !! k = Some pick →
            greedy_step vecs (take k r) pick.
Proof.
  induction iters as [|n IH]; intros pivots rng Hne r k pick Hk Hr.
  - subst r. simpl in Hr. apply lookup_lt_Some in Hr. lia.
  - subst r. simpl in Hr |- *. case_bool_decide as Hpick.
    + destruct (filter _ (seq 0 (length vecs))) as [|x rem] eqn:Hrem.
      { apply lookup_lt_Some in Hr. lia. }
      pose proof (random_choice_elem_of rng (x :: rem)) as Hin.
      destruct (random_choice rng (x :: rem)) as [pick' rng'].
      simpl in Hin. specialize (Hin ltac:(done)).
      rewrite <- Hrem in Hin. apply list_elem_of_filter in Hin.
      destruct Hin as [Hnot Hseq]. apply elem_of_seq in Hseq.
      rewrite <- nearest_sim_of_snoc in Hr |- * by done.
      destruct (decide (k = length pivots)) as [->|Hne'].
      * pose proof (fps_loop_prefix vecs n (pivots ++ [pick'])
                      (nearest_sim_of vecs (pivots ++ [pick'])) rng') as Hp.
        apply prefix_snoc_lookup in Hp as [Hl Ht].
        rewrite Ht. rewrite Hl in Hr. injection Hr as <-.
        right. split_and!; [done|done|lia].
      * apply (IH (pivots ++ [pick']) rng'); [by destruct pivots| |done].
        rewrite length_app. simpl. lia.
    + rewrite <- nearest_sim_of_snoc in Hr |- * by done.
      destruct (decide (k = length pivots)) as [->|Hne'].
      * pose proof (fps_loop_prefix vecs n
                      (pivots ++ [argmin (nearest_sim_of vecs pivots)])
                      (nearest_sim_of vecs
                         (pivots ++ [argmin (nearest_sim_of vecs pivots)]))
                      rng) as Hp.
        apply prefix_snoc_lookup in Hp as [Hl Ht].
        rewrite Ht. rewrite Hl in Hr. injection Hr as <-.
        left. done.
      * apply (IH (pivots ++ [argmin (nearest_sim_of vecs pivots)]) rng);
          [by destruct pivots| |done].
        rewrite length_app. simpl. lia.
Qed.

Lemma Qmaximum_cases a b : Qmaximum a b = a ∨ Qmaximum a b = b.
Proof. unfold Qmaximum. destruct (Qle_bool a b); auto. Qed.

Lemma lookup_matvec (m : list vec) v i r :
  m !! i = Some r → matvec m v !! i = Some (dot r v).
Proof. intros H. unfold matvec. by rewrite list_lookup_fmap, H. Qed.

Lemma row_lookup (m : list vec) i r : m !! i = Some r → row m i = r.
Proof. intros H. unfold row, matrix, vec in *. by rewrite H. Qed.

(** The entries of [nearest_sim] are the largest similarities to the pivots
    chosen so far. *)
Lemma nearest_sim_of_max vecs pivots :
  pivots ≠ [] →
  Forall (fun p => p < length vecs) pivots →
  ∀ i v, vecs !! i = Some v →
    ∃ m, nearest_sim_of vecs pivots !! i = Some m ∧
         (∀ p pv, p ∈ pivots → vecs !! p = Some pv → (dot v pv <= m)%Q) ∧
         (∃ p pv, p ∈ pivots ∧ vecs !! p = Some pv ∧ m = dot v pv).
Proof.
  induction pivots as [|q pivots IH] using rev_ind; [done|].
  intros _ Hall i v Hv. apply Forall_app in Hall as [Hall Hq].
  rewrite Forall_singleton in Hq.
  destruct (lookup_lt_is_Some_2 vecs q Hq) as [qv Hqv].
  destruct pivots as [|seed picks].
  - simpl. rewrite (row_lookup _ _ _ Hqv).
    exists (dot v qv). split_and!; [by apply lookup_matvec| |].
    + intros p pv Hp Hpv. apply list_elem_of_singleton in Hp as ->.
      assert (pv = qv) as -> by congruence. apply Qle_refl.
    + exists q, qv. split_and!; [apply list_elem_of_here|done|done].
  - destruct (IH ltac:(done) Hall i v Hv) as (m & Hm & Hub & (p0 & pv0 & Hp0)).
    rewrite nearest_sim_of_snoc by done.
    rewrite (row_lookup _ _ _ Hqv).
    exists (Qmaximum m (dot v qv)). split_and!.
    + unfold maximum. apply lookup_zip_with_Some.
      exists m, (dot v qv). split_and!; [done|done|by apply lookup_matvec].
    + intros p pv Hp Hpv. apply elem_of_app in Hp as [Hp|Hp].
      * pose proof (Hub p pv Hp Hpv). pose proof (Qmaximum_ge_l m (dot v qv)).
        lra.
      * apply list_elem_of_singleton in Hp as ->.
        assert (pv = qv) as -> by congruence. apply Qmaximum_ge_r.
    + destruct (Qmaximum_cases m (dot v qv)) as [->| ->].
      * destruct Hp0 as (Hin & Hpv0 & ->). exists p0, pv0.
        split_and!; [apply elem_of_app; by left|done|done].
      * exists q, qv. split_and!; [|done|done].
        apply elem_of_app. right. apply list_elem_of_here.
Qed.

(** When every similarity of a vector to itself exceeds every similarity
    between two different vectors, the point of least [nearest_sim] is never
    a pivot while a non-pivot is left. *)
Lemma argmin_nearest_fresh vecs pivots x :
  (∀ i j k u v w, j ≠ k → vecs !! i = Some u → vecs !! j = Some v →
                  vecs !! k = Some w → (dot v w < dot u u)%Q) →
  pivots ≠ [] → Forall (fun p => p < length vecs) pivots →
  x < length vecs → x ∉ pivots →
  argmin (nearest_sim_of vecs pivots) ∉ pivots.
Proof.
  intros Hsep Hne Hall Hx Hxp Hin.
  set (ns := nearest_sim_of vecs pivots) in *.
  destruct (argmin_spec ns) as (m & Hm & Hle & _).
  { intros E. pose proof (length_nearest_sim_of vecs pivots Hne) as Hl.
    fold ns in Hl. rewrite E in Hl. simpl in Hl. lia. }
  set (far := argmin ns) in *.
  assert (far < length vecs) as Hfar.
  { rewrite Forall_forall in Hall. by apply Hall. }
  destruct (lookup_lt_is_Some_2 vecs far Hfar) as [fv Hfv].
  destruct (lookup_lt_is_Some_2 vecs x Hx) as [xv Hxv].
  destruct (nearest_sim_of_max vecs pivots Hne Hall far fv Hfv)
    as (m' & Hm' & Hub & _).
  fold ns in Hm'. assert (m' = m) as -> by congruence.
  specialize (Hub far fv Hin Hfv).
  destruct (nearest_sim_of_max vecs pivots Hne Hall x xv Hxv)
    as (mx & Hmx & _ & (p & pv & Hp & Hpv & ->)).
  fold ns in Hmx. specialize (Hle x _ Hmx).
  assert (x ≠ p) as Hxne by (intros ->; done).
  pose proof (Hsep far x p fv xv pv Hxne Hfv Hxv Hpv) as Hlt.
  lra.
Qed.

Lemma fps_loop_rng_irrelevant vecs iters :
  (∀ i j k u v w, j ≠ k → vecs !! i = Some u → vecs !! j = Some v →
                  vecs !! k = Some w → (dot v w < dot u u)%Q) →
  ∀ pivots rng1 rng2,
    pivots ≠ [] → fps_inv vecs pivots →
    fps_loop vecs iters pivots (nearest_sim_of vecs pivots) rng1
    = fps_loop vecs iters pivots (nearest_sim_of vecs pivots) rng2.
Proof.
  intros Hsep.
  induction iters as [|n IH]; intros pivots rng1 rng2 Hne [Hnd Hall];
    simpl; [done|].
  case_bool_decide as Hpick.
  - destruct (filter _ (seq 0 (length vecs))) as [|x rem] eqn:Hrem; [done|].
    exfalso.
    assert (x ∈ filter (fun i => i ∉ pivots) (seq 0 (length vecs))) as Hx
      by (rewrite Hrem; apply list_elem_of_here).
    apply list_elem_of_filter in Hx as [Hxp Hx]. apply elem_of_seq in Hx.
    eapply (argmin_nearest_fresh vecs pivots x); try done. lia.
  - assert (argmin (nearest_sim_of vecs pivots) < length vecs) as Hlt.
    { rewrite <- (length_nearest_sim_of vecs pivots Hne).
      apply argmin_lt. rewrite length_nearest_sim_of by done.
      destruct pivots as [|p ?]; [done|].
      apply Forall_cons in Hall as [Hp _]. lia. }
    rewrite <- nearest_sim_of_snoc by done.
    apply IH; [by destruct pivots|].
    apply fps_inv_snoc; done.
Qed.

Lemma greedy_selection_unfold vecs max_pivots rng :
  0 < length vecs →
  let seed := argmin (matvec vecs (mean_axis0 vecs)) in
  seed < length vecs ∧
  greedy_selection vecs max_pivots rng
  = fps_loop vecs
      (Z.to_nat (Z.min max_pivots (Z.max 1 (Z.of_nat (length vecs))) - 1))
      [seed] (nearest_sim_of vecs [seed]) rng.
Proof.
  intros Hn seed. split.
  - unfold seed. rewrite <- (length_matvec vecs (mean_axis0 vecs)).
    apply argmin_lt. by rewrite length_matvec.
  - unfold greedy_selection.
    destruct (decide (length vecs = 0)); [lia|done].
Qed.

Lemma fps_inv_singleton vecs p : p < length vecs → fps_inv vecs [p].
Proof.
  intros Hp. split; [apply NoDup_singleton|by apply Forall_singleton].
Qed.

Lemma pivot_count_aux vecs max_pivots rng :
  0 < length vecs →
  Z.of_nat (length (greedy_farthest_pivots vecs max_pivots rng))
  = Z.max 1 (Z.min max_pivots (Z.of_nat (length vecs))).
Proof.
  intros Hn.
  destruct (greedy_farthest_pivots_spec vecs max_pivots rng Hn)
    as (Hperm & _).
  rewrite Hperm.
  destruct (greedy_selection_unfold vecs max_pivots rng Hn) as [Hseed ->].
  set (iters := Z.to_nat _).
  destruct (fps_loop_spec vecs Hn iters
              [argmin (matvec vecs (mean_axis0 vecs))]
              (nearest_sim_of vecs [argmin (matvec vecs (mean_axis0 vecs))])
              rng) as (_ & _ & _ & H4).
  { simpl. apply length_matvec. }
  { by apply fps_inv_singleton. }
  rewrite H4; simpl; unfold iters; lia.
Qed.

(** X1: on a non-empty corpus the selector returns exactly
    [max(1, min(max_pivots, N))] pivots: the early [break] never shortens
    the result, and a [max_pivots] below 1 still yields the seed. *)
Theorem pivot_count_exact (vecs : matrix) (max_pivots : Z) (rng : list nat) :
  1 ≤ length vecs →
  Z.of_nat (length (greedy_farthest_pivots vecs max_pivots rng))
  = Z.max 1 (Z.min max_pivots (Z.of_nat (length vecs))).
Proof. intros Hn. apply pivot_count_aux. lia. Qed.

Lemma pivot_count_exact_witness :
  1 ≤ length example_corpus ∧
  Z.of_nat (length (greedy_farthest_pivots example_corpus 0 [])) = 1%Z.
Proof.
  split; [simpl; lia|].
  apply (pivot_count_exact example_corpus 0 []). simpl; lia.
Defined.

(** X2: the pivot selected first is the first vector of least similarity
    to the centroid, and it is among the returned pivots. *)
Theorem seed_is_least_central
    (vecs : matrix) (max_pivots : Z) (rng : list nat) :
  1 ≤ length vecs →
  ∃ seed s,
    greedy_selection vecs max_pivots rng !! 0 = Some seed ∧
    first_min (matvec vecs (mean_axis0 vecs)) seed s ∧
    seed ∈ greedy_farthest_pivots vecs max_pivots rng.
Proof.
  intros Hn.
  destruct (argmin_spec (matvec vecs (mean_axis0 vecs))) as (s & Hs).
  { intros E. pose proof (length_matvec vecs (mean_axis0 vecs)) as Hl.
    rewrite E in Hl. simpl in Hl. lia. }
  exists (argmin (matvec vecs (mean_axis0 vecs))), s.
  destruct (greedy_selection_unfold vecs max_pivots rng) as [_ Hsel]; [lia|].
  assert (greedy_selection vecs max_pivots rng !! 0
          = Some (argmin (matvec vecs (mean_axis0 vecs)))) as H0.
  { rewrite Hsel.
    destruct (fps_loop_prefix vecs
                (Z.to_nat
                   (Z.min max_pivots (Z.max 1 (Z.of_nat (length vecs))) - 1))
                [argmin (matvec vecs (mean_axis0 vecs))]
                (nearest_sim_of vecs
                   [argmin (matvec vecs (mean_axis0 vecs))]) rng)
      as [t ->].
    done. }
  split_and!; [done|done|].
  destruct (greedy_farthest_pivots_spec vecs max_pivots rng)
    as (Hperm & _); [lia|].
  rewrite Hperm. by eapply list_elem_of_lookup_2.
Qed.

Lemma seed_is_least_central_witness :
  1 ≤ length example_corpus ∧
  ∃ seed, greedy_selection example_corpus 2 [] !! 0 = Some seed ∧
          seed ∈ greedy_farthest_pivots example_corpus 2 [].
Proof.
  split; [simpl; lia|].
  destruct (seed_is_least_central example_corpus 2 [])
    as (seed & s & H1 & _ & H3); [simpl; lia|].
  by exists seed.
Defined.

Lemma is_max_sim_nearest vecs pre i m :
  pre ≠ [] → Forall (fun p => p < length vecs) pre →
  is_max_sim vecs pre i m →
  ∃ m', nearest_sim_of vecs pre !! i = Some m' ∧ (m' == m)%Q.
Proof.
  intros Hne Hall (v & Hv & Hub & (p & pv & Hp & Hpv & ->)).
  destruct (nearest_sim_of_max vecs pre Hne Hall i v Hv)
    as (m' & Hm' & Hub' & (p' & pv' & Hp' & Hpv' & ->)).
  eexists. split; [done|].
  pose proof (Hub p' pv' Hp' Hpv'). pose proof (Hub' p pv Hp Hpv). lra.
Qed.

(** X3: every pivot after the seed is new, and it is a farthest point: its
    largest similarity to the pivots chosen before it is the least among all
    vectors; the only exception is that such a farthest point is a pivot
    already, in which case the pick is some vector that is not. *)
Theorem greedy_picks_farthest
    (vecs : matrix) (max_pivots : Z) (rng : list nat) (k pick : nat) :
  1 ≤ k →
  greedy_selection vecs max_pivots rng !! k = Some pick →
  let pre := take k (greedy_selection vecs max_pivots rng) in
  (pick ∉ pre) ∧ pick < length vecs ∧
  ∃ far mfar,
    is_max_sim vecs pre far mfar ∧
    (∀ i mi, is_max_sim vecs pre i mi → (mfar <= mi)%Q) ∧
    (pick = far ∨ far ∈ pre).
Proof.
  intros Hk Hpick pre.
  assert (0 < length vecs) as Hn.
  { destruct (decide (length vecs = 0)) as [E|]; [|lia].
    unfold greedy_selection in Hpick. rewrite decide_True in Hpick by done.
    done. }
  destruct (greedy_selection_spec vecs max_pivots rng Hn)
    as ((Hnd & Hall) & _ & _).
  destruct (greedy_selection_unfold vecs max_pivots rng Hn) as [Hseed Hsel].
  assert (greedy_step vecs pre pick) as Hstep.
  { unfold pre. rewrite Hsel. rewrite Hsel in Hpick.
    eapply fps_loop_steps; [done|simpl; lia|done]. }
  assert (pre ≠ []) as Hne.
  { unfold pre. apply lookup_lt_Some in Hpick.
    destruct (greedy_selection vecs max_pivots rng); simpl in *; [lia|].
    destruct k; [lia|done]. }
  assert (Forall (fun p => p < length vecs) pre) as Hpre.
  { unfold pre. by apply Forall_take. }
  assert (pick ∉ pre) as Hfresh.
  { unfold pre. intros Hin.
    apply list_elem_of_lookup in Hin as [j Hj].
    apply lookup_take_Some in Hj as [Hj Hjk].
    pose proof (NoDup_lookup _ _ _ _ Hnd Hj Hpick). lia. }
  assert (pick < length vecs) as Hlt.
  { rewrite Forall_forall in Hall. apply Hall.
    by eapply list_elem_of_lookup_2. }
  split_and!; [done|done|].
  set (ns := nearest_sim_of vecs pre) in *.
  destruct (argmin_spec ns) as (m & Hm & Hle & _).
  { intros E. pose proof (length_nearest_sim_of vecs pre Hne) as Hl.
    fold ns in Hl. rewrite E in Hl. simpl in Hl. lia. }
  assert (argmin ns < length vecs) as Hfar.
  { apply lookup_lt_Some in Hm. unfold ns in Hm.
    by rewrite length_nearest_sim_of in Hm. }
  destruct (lookup_lt_is_Some_2 vecs _ Hfar) as [fv Hfv].
  destruct (nearest_sim_of_max vecs pre Hne Hpre _ fv Hfv)
    as (m' & Hm' & Hub & Hatt).
  fold ns in Hm'. assert (m' = m) as -> by congruence.
  exists (argmin ns), m. split_and!.
  - by exists fv.
  - intros i mi Hi.
    destruct (is_max_sim_nearest vecs pre i mi Hne Hpre Hi)
      as (mi' & Hmi' & Heq).
    fold ns in Hmi'. specialize (Hle i mi' Hmi'). lra.
  - destruct Hstep as [[_ ->]|[Hin _]]; [by left|by right].
Qed.

Lemma greedy_picks_farthest_witness :
  1 ≤ 1 ∧ greedy_selection example_corpus 2 [] !! 1 = Some 1 ∧
  1 ∉ take 1 (greedy_selection example_corpus 2 []).
Proof.
  split; [lia|]. split; [reflexivity|].
  apply (greedy_picks_farthest example_corpus 2 [] 1 1); [lia|reflexivity].
Defined.

(** X4: when every similarity of a vector to itself exceeds every similarity
    between two different vectors of the corpus, the point of least
    [nearest_sim] is never a pivot already, so the random fallback is never
    taken: the selection does not depend on the random source.  Only the
    order of the similarity values is used. *)
Theorem selection_ignores_rng_when_self_similarity_dominates
    (vecs : matrix) (max_pivots : Z) (rng1 rng2 : list nat) :
  (∀ i j k u v w, j ≠ k → vecs !! i = Some u → vecs !! j = Some v →
                  vecs !! k = Some w → (dot v w < dot u u)%Q) →
  greedy_selection vecs max_pivots rng1 = greedy_selection vecs max_pivots rng2
  ∧ greedy_farthest_pivots vecs max_pivots rng1
    = greedy_farthest_pivots vecs max_pivots rng2.
Proof.
  intros Hsep.
  assert (greedy_selection vecs max_pivots rng1
          = greedy_selection vecs max_pivots rng2) as Hsel.
  { destruct (decide (length vecs = 0)) as [E|Hn].
    { unfold greedy_selection. by rewrite !decide_True by done. }
    destruct (greedy_selection_unfold vecs max_pivots rng1) as [Hseed ->];
      [lia|].
    destruct (greedy_selection_unfold vecs max_pivots rng2) as [_ ->];
      [lia|].
    apply fps_loop_rng_irrelevant; [done|done|].
    by apply fps_inv_singleton. }
  split; [done|]. unfold greedy_farthest_pivots. by rewrite Hsel.
Qed.

Lemma example_corpus_self_similarity_dominates :
  ∀ i j k u v w, j ≠ k → example_corpus !! i = Some u →
    example_corpus !! j = Some v → example_corpus !! k = Some w →
    (dot v w < dot u u)%Q.
Proof.
  intros i j k u v w Hjk Hu Hv Hw.
  destruct i as [|[|[|i]]]; destruct j as [|[|[|j]]];
    destruct k as [|[|[|k]]];
    simpl in Hu, Hv, Hw; try done;
    injection Hu as <-; injection Hv as <-; injection Hw as <-; reflexivity.
Qed.

Lemma selection_ignores_rng_when_self_similarity_dominates_witness :
  greedy_farthest_pivots example_corpus 3 [5; 7]
  = greedy_farthest_pivots example_corpus 3 [].
Proof.
  apply (selection_ignores_rng_when_self_similarity_dominates
           example_corpus 3 [5; 7] []
           example_corpus_self_similarity_dominates).
Defined.

(** ** Further properties of the assigner *)

Lemma assign_Some_in_range
    (vecs : matrix) (pivots : list nat) :
  pivots ≠ [] →
  is_Some (assign_to_nearest_pivot vecs pivots) →
  Forall (fun p => p < length vecs) pivots.
Proof.
  intros Hne [res Hres]. unfold assign_to_nearest_pivot in Hres.
  destruct (decide (length pivots = 0)) as [E|_]; [by destruct pivots|].
  apply bind_Some in Hres as (P & HP & _).
  apply mapM_Some in HP. apply Forall_forall. intros p Hp.
  apply list_elem_of_lookup in Hp as [j Hj].
  destruct (Forall2_lookup_l _ _ _ _ _ HP Hj) as (r & _ & Hr).
  by eapply lookup_lt_Some.
Qed.

(** X5: with at least one pivot, the assigner returns a result exactly when
    every pivot index is a row of the matrix; an index past the end makes it
    fail. *)
Theorem assign_fails_iff_pivot_out_of_range
    (vecs : matrix) (pivots : list nat) :
  pivots ≠ [] →
  (is_Some (assign_to_nearest_pivot vecs pivots)
   ↔ Forall (fun p => p < length vecs) pivots).
Proof.
  intros Hne. split.
  - by apply assign_Some_in_range.
  - intros Hall. destruct (assign_spec vecs pivots Hne Hall)
      as (best & dist & -> & _). done.
Qed.

Lemma assign_fails_iff_pivot_out_of_range_witness :
  [1; 7] ≠ [] ∧ assign_to_nearest_pivot example_corpus [1; 7] = None.
Proof.
  split; [done|].
  destruct (assign_to_nearest_pivot example_corpus [1; 7]) eqn:E; [|done].
  exfalso.
  pose proof (proj1 (assign_fails_iff_pivot_out_of_range example_corpus
                       [1; 7] ltac:(done))) as H.
  rewrite E in H. specialize (H ltac:(done)).
  apply Forall_cons in H as [_ H]. apply Forall_cons in H as [H _].
  simpl in H. lia.
Defined.

(** X6: every assignment that the assigner returns is the local index of one
    of the given pivots, and there are as many assignments as distances:
    none when there is no pivot, one per vector otherwise. *)
Theorem assign_index_range
    (vecs : matrix) (pivots best : list nat) (dist : list Q) :
  assign_to_nearest_pivot vecs pivots = Some (best, dist) →
  Forall (fun b => b < length pivots) best ∧
  length best = length dist ∧
  length best = (if decide (pivots = []) then 0 else length vecs).
Proof.
  intros Has.
  destruct (decide (pivots = [])) as [->|Hne].
  { injection Has as <- <-. split_and!; [constructor|done|done]. }
  assert (Forall (fun p => p < length vecs) pivots) as Hall.
  { apply assign_Some_in_range; [done|]. by rewrite Has. }
  destruct (assign_spec vecs pivots Hne Hall)
    as (best' & dist' & Has' & Hlb & Hld & Hi).
  rewrite Has in Has'. injection Has' as <- <-. split_and!; [|lia|done].
  apply Forall_forall. intros b Hb.
  apply list_elem_of_lookup in Hb as [i Hb].
  destruct (lookup_lt_is_Some_2 vecs i) as [v Hv].
  { apply lookup_lt_Some in Hb. lia. }
  destruct (Hi i v Hv) as (b' & p & pv & Hb' & Hp & _).
  assert (b' = b) as -> by congruence. by eapply lookup_lt_Some.
Qed.

Lemma assign_index_range_witness :
  ∃ best dist,
    assign_to_nearest_pivot example_corpus [1; 2] = Some (best, dist) ∧
    Forall (fun b => b < 2) best.
Proof.
  destruct (assign_to_nearest_pivot example_corpus [1; 2])
    as [[best dist]|] eqn:E; [|vm_compute in E; discriminate].
  exists best, dist. split; [done|].
  apply (assign_index_range example_corpus [1; 2] best dist E).
Defined.

(** X20: a pivot is assigned to a pivot that is at least as similar to it as
    it is to itself, so the distance recorded for a pivot is at most 1 minus
    the similarity of the pivot to itself. *)
Theorem pivot_distance_at_most_self
    (vecs : matrix) (pivots best : list nat) (dist : list Q)
    (p : nat) (v : vec) :
  assign_to_nearest_pivot vecs pivots = Some (best, dist) →
  p ∈ pivots → vecs !! p = Some v →
  ∃ d b q qv,
    dist !! p = Some d ∧ best !! p = Some b ∧
    pivots !! b = Some q ∧ vecs !! q = Some qv ∧
    d = (1 - dot v qv)%Q ∧
    (dot v v <= dot v qv)%Q ∧ (d <= 1 - dot v v)%Q.
Proof.
  intros Has Hp Hv.
  assert (pivots ≠ []) as Hne by (intros ->; by apply not_elem_of_nil in Hp).
  assert (Forall (fun p => p < length vecs) pivots) as Hall.
  { apply assign_Some_in_range; [done|]. by rewrite Has. }
  destruct (assign_spec vecs pivots Hne Hall)
    as (best' & dist' & Has' & _ & _ & Hi).
  rewrite Has in Has'. injection Has' as <- <-.
  destruct (Hi p v Hv) as (b & q & qv & Hb & Hq & Hqv & Hd & Hmax & _).
  apply list_elem_of_lookup in Hp as [j Hj].
  specialize (Hmax j p v Hj Hv).
  exists (1 - dot v qv)%Q, b, q, qv.
  split_and!; [done|done|done|done|done|done|lra].
Qed.

Lemma pivot_distance_at_most_self_witness :
  ∃ d, (d <= 1 - dot [1; 0] [1; 0])%Q ∧
       ∃ best dist,
         assign_to_nearest_pivot example_corpus [1; 2] = Some (best, dist) ∧
         dist !! 1 = Some d.
Proof.
  destruct (assign_to_nearest_pivot example_corpus [1; 2])
    as [[best dist]|] eqn:E; [|vm_compute in E; discriminate].
  destruct (pivot_distance_at_most_self example_corpus [1; 2] best dist 1
              [1; 0]%Q E) as (d & b & q & qv & Hd & _ & _ & _ & _ & _ & Hle).
  { apply list_elem_of_here. }
  { reflexivity. }
  exists d. split; [exact Hle|]. by exists best, dist.
Defined.

(** ** Further properties of the bands *)

(** A quantile lies between every lower and every upper bound of the
    array. *)
Lemma np_quantile_between a q c :
  np_quantile a q = Some c →
  (∀ lb, Forall (fun x => (lb <= x)%Q) a → (lb <= c)%Q) ∧
  (∀ ub, Forall (fun x => (x <= ub)%Q) a → (c <= ub)%Q).
Proof.
  unfold np_quantile. destruct (decide _) as [Hf|]; [|done].
  intros H.
  pose proof (virtual_index_bounds q (length a - 1) Hf) as Hb.
  set (K := inject_Z (Z.of_nat (length a - 1))) in *.
  pose proof (Qfloor_le (q * K)) as Hl. pose proof (Qlt_floor (q * K)) as Hu.
  assert (StronglySorted Qle (merge_sort Qle a)) as Hs
    by (apply StronglySorted_merge_sort; apply _).
  pose proof (StronglySorted_lookup_le Qle _ Hs) as Hmono.
  assert (merge_sort Qle a ≡ₚ a) as Hperm by apply merge_sort_Permutation.
  set (s := merge_sort Qle a) in *. set (f := Qfloor (q * K)) in *.
  destruct (s !! Z.to_nat f) as [lo|] eqn:Elo; [|done].
  destruct (s !! Nat.min (Z.to_nat f + 1) (length a - 1)) as [hi|] eqn:Ehi;
    [|done].
  simpl in H. injection H as <-.
  rewrite inject_Z_plus in Hu. change (inject_Z 1) with 1%Q in *.
  assert (lo <= hi)%Q as Hlh by (eapply (Hmono _ _ _ _); [|done..]; lia).
  assert (lo ∈ a) as Hlo_in
    by (rewrite <- Hperm; by eapply list_elem_of_lookup_2).
  assert (hi ∈ a) as Hhi_in
    by (rewrite <- Hperm; by eapply list_elem_of_lookup_2).
  set (g := (q * K - inject_Z f)%Q).
  assert (0 <= g ∧ g < 1)%Q as [Hg0 Hg1] by (unfold g; split; lra).
  assert (0 <= (hi - lo) * g)%Q by (apply Qmult_le_0_compat; lra).
  assert ((hi - lo) * g <= (hi - lo) * 1)%Q.
  { rewrite !(Qmult_comm (hi - lo)). apply Qmult_le_compat_r; lra. }
  split.
  - intros lb Hlb. rewrite Forall_forall in Hlb.
    pose proof (Hlb lo Hlo_in). lra.
  - intros ub Hub. rewrite Forall_forall in Hub.
    pose proof (Hub hi Hhi_in). lra.
Qed.

Lemma np_quantile_Some_fraction a q c :
  np_quantile a q = Some c → is_fraction q.
Proof. unfold np_quantile. destruct (decide _) as [Hf|]; done. Qed.

(** X7: a non-empty pivot group gets its bands exactly when every quantile
    fraction lies in [[0, 1]]; a fraction outside makes the computation
    fail. *)
Theorem bands_fail_iff_fraction_out_of_range (dists quantiles : list Q) :
  dists ≠ [] →
  (is_Some (compute_bands_for_pivot dists quantiles)
   ↔ Forall is_fraction quantiles).
Proof.
  intros Hne. split.
  - intros [bands Hb]. unfold compute_bands_for_pivot in Hb.
    destruct (decide (length dists = 0)) as [E|_]; [by destruct dists|].
    apply bind_Some in Hb as (qs & Hqs & _). apply mapM_Some in Hqs.
    apply Forall_forall. intros q Hq.
    apply list_elem_of_lookup in Hq as [j Hj].
    destruct (Forall2_lookup_l _ _ _ _ _ Hqs Hj) as (c & _ & Hc).
    by eapply np_quantile_Some_fraction.
  - intros Hq. destruct (compute_bands_spec dists quantiles Hq)
      as (bands & -> & _). done.
Qed.

Lemma bands_fail_iff_fraction_out_of_range_witness :
  [1; 2]%Q ≠ [] ∧
  is_Some (compute_bands_for_pivot [1; 2]%Q BAND_QUANTILES).
Proof.
  split; [done|].
  apply (bands_fail_iff_fraction_out_of_range [1; 2]%Q BAND_QUANTILES);
    [done|apply BAND_QUANTILES_fractions].
Defined.

(** X8: every band is at most the number of quantile fractions, and with
    at least one fraction a member whose distance is the least of its group
    is in band 0. *)
Theorem bands_range_and_closest_member (dists quantiles : list Q)
    (bands : list nat) :
  compute_bands_for_pivot dists quantiles = Some bands →
  Forall (fun b => b ≤ length quantiles) bands ∧
  (quantiles ≠ [] →
   ∀ i d, dists !! i = Some d → Forall (fun x => (d <= x)%Q) dists →
          bands !! i = Some 0).
Proof.
  intros Hb. unfold compute_bands_for_pivot in Hb.
  destruct (decide (length dists = 0)) as [E|_].
  { injection Hb as <-. split; [constructor|].
    intros _ i d Hd. destruct dists; done. }
  apply bind_Some in Hb as (qs & Hqs & [= <-]).
  pose proof (length_mapM _ _ _ Hqs) as Hlen.
  split.
  - apply Forall_fmap, Forall_forall. intros d _. simpl. rewrite Hlen.
    eapply is_band_le_length, band_of_is_band.
  - intros Hne i d Hd Hmin. rewrite list_lookup_fmap, Hd. simpl. f_equal.
    destruct (lookup_lt_is_Some_2 qs 0) as [c0 Hc0].
    { rewrite <- Hlen. destruct quantiles; simpl; [done|lia]. }
    apply mapM_Some in Hqs.
    destruct (Forall2_lookup_r _ _ _ _ _ Hqs Hc0) as (q0 & _ & Hq0).
    destruct (np_quantile_between dists q0 c0 Hq0) as [Hlow _].
    specialize (Hlow d Hmin).
    destruct (band_of_is_band qs d) as [(c & Hc & Hle & Hbefore)|[Hn Hall]].
    + destruct (band_of qs d) as [|b] eqn:Eb; [done|]. exfalso.
      pose proof (Hbefore 0 c0 ltac:(lia) Hc0) as Hlt. lra.
    + exfalso. rewrite Forall_forall in Hall.
      assert (c0 < d)%Q by (apply Hall; by eapply list_elem_of_lookup_2).
      lra.
Qed.

Lemma bands_range_and_closest_member_witness :
  ∃ bands,
    compute_bands_for_pivot [2 # 5; 0; 1 # 5]%Q BAND_QUANTILES = Some bands ∧
    Forall (fun b => b ≤ 3) bands.
Proof.
  destruct (compute_bands_for_pivot [2 # 5; 0; 1 # 5]%Q BAND_QUANTILES)
    as [bands|] eqn:E; [|vm_compute in E; discriminate].
  exists bands. split; [done|].
  apply (bands_range_and_closest_member _ _ bands E).
Defined.

(** ** Further properties of the normalisation *)

Lemma foldl_Qminimum_in t : ∀ acc, foldl Qminimum acc t ∈ acc :: t.
Proof.
  induction t as [|x t IH]; intros acc; simpl; [apply list_elem_of_here|].
  specialize (IH (Qminimum acc x)).
  apply elem_of_cons in IH as [->|IH].
  - unfold Qminimum. destruct (Qle_bool acc x).
    + apply list_elem_of_here.
    + apply list_elem_of_further, list_elem_of_here.
  - by do 2 apply list_elem_of_further.
Qed.

Lemma foldl_Qmaximum_in t : ∀ acc, foldl Qmaximum acc t ∈ acc :: t.
Proof.
  induction t as [|x t IH]; intros acc; simpl; [apply list_elem_of_here|].
  specialize (IH (Qmaximum acc x)).
  apply elem_of_cons in IH as [->|IH].
  - unfold Qmaximum. destruct (Qle_bool acc x).
    + apply list_elem_of_further, list_elem_of_here.
    + apply list_elem_of_here.
  - by do 2 apply list_elem_of_further.
Qed.

Lemma np_min_in x : x ≠ [] → np_min x ∈ x.
Proof. destruct x as [|x0 t]; [done|]. intros _. apply foldl_Qminimum_in. Qed.

Lemma np_max_in x : x ≠ [] → np_max x ∈ x.
Proof. destruct x as [|x0 t]; [done|]. intros _. apply foldl_Qmaximum_in. Qed.

Lemma minmax_norm_lookup x i xi :
  x !! i = Some xi →
  ∃ yi, minmax_norm x !! i = Some yi ∧
    ((np_max x - np_min x < 1 # 100000000)%Q ∧ yi = 0%Q ∨
     (1 # 100000000 <= np_max x - np_min x)%Q ∧
     yi = ((xi - np_min x) / (np_max x - np_min x))%Q).
Proof.
  intros Hi. unfold minmax_norm.
  destruct (decide (length x = 0)) as [E|_].
  { destruct x; [done|]. simpl in E. lia. }
  destruct (Qltb _ _) eqn:E.
  - apply Qltb_true in E. eexists. rewrite list_lookup_fmap, Hi.
    split; [done|]. by left.
  - apply Qltb_false in E. eexists. rewrite list_lookup_fmap, Hi.
    split; [done|]. by right.
Qed.

(** X9: min-max normalisation keeps the order of the values; and when the
    values are at least [1e-8] apart, the smallest value is mapped to 0, the
    largest to 1, and both are attained. *)
Theorem minmax_norm_order_and_endpoints (x : list Q) :
  (∀ i j xi xj, x !! i = Some xi → x !! j = Some xj → (xi <= xj)%Q →
     ∃ yi yj, minmax_norm x !! i = Some yi ∧ minmax_norm x !! j = Some yj ∧
              (yi <= yj)%Q) ∧
  ((1 # 100000000 <= np_max x - np_min x)%Q →
   (∀ i xi yi, x !! i = Some xi → minmax_norm x !! i = Some yi →
      ((xi == np_min x)%Q → (yi == 0)%Q) ∧
      ((xi == np_max x)%Q → (yi == 1)%Q)) ∧
   (∃ i yi, minmax_norm x !! i = Some yi ∧ (yi == 0)%Q) ∧
   (∃ j yj, minmax_norm x !! j = Some yj ∧ (yj == 1)%Q)).
Proof.
  split.
  - intros i j xi xj Hi Hj Hle.
    destruct (minmax_norm_lookup x i xi Hi) as (yi & Hyi & Hci).
    destruct (minmax_norm_lookup x j xj Hj) as (yj & Hyj & Hcj).
    exists yi, yj. split_and!; [done|done|].
    destruct Hci as [[Hd ->]|[Hn ->]]; destruct Hcj as [[Hd' ->]|[Hn' ->]];
      try lra.
    unfold Qdiv. apply Qmult_le_compat_r; [lra|].
    apply Qinv_le_0_compat. lra.
  - intros Hnd.
    assert (0 < np_max x - np_min x)%Q as Hpos.
    { eapply Qlt_le_trans; [|exact Hnd]. reflexivity. }
    assert (∀ i xi yi, x !! i = Some xi → minmax_norm x !! i = Some yi →
              yi = ((xi - np_min x) / (np_max x - np_min x))%Q) as Hval.
    { intros i xi yi Hi Hyi.
      destruct (minmax_norm_lookup x i xi Hi) as (yi' & Hyi' & Hc).
      assert (yi' = yi) as -> by congruence.
      destruct Hc as [[Hd _]|[_ ->]]; [lra|done]. }
    assert (x ≠ []) as Hne.
    { intros ->. simpl in Hnd. unfold Qle in Hnd. simpl in Hnd. lia. }
    split_and!.
    + intros i xi yi Hi Hyi. rewrite (Hval i xi yi Hi Hyi). split.
      * intros ->. field. lra.
      * intros ->. field. lra.
    + destruct (proj1 (list_elem_of_lookup _ _) (np_min_in x Hne))
        as [i Hi].
      destruct (minmax_norm_lookup x i _ Hi) as (yi & Hyi & _).
      exists i, yi. split; [done|].
      rewrite (Hval i _ yi Hi Hyi). field. lra.
    + destruct (proj1 (list_elem_of_lookup _ _) (np_max_in x Hne))
        as [j Hj].
      destruct (minmax_norm_lookup x j _ Hj) as (yj & Hyj & _).
      exists j, yj. split; [done|].
      rewrite (Hval j _ yj Hj Hyj). field. lra.
Qed.

Lemma minmax_norm_order_and_endpoints_witness :
  (1 # 100000000 <= np_max [2; 5; 3] - np_min [2; 5; 3])%Q ∧
  ∃ j yj, minmax_norm [2; 5; 3]%Q !! j = Some yj ∧ (yj == 1)%Q.
Proof.
  assert (1 # 100000000 <= np_max [2; 5; 3] - np_min [2; 5; 3])%Q as H
    by (vm_compute; discriminate).
  split; [exact H|].
  apply (minmax_norm_order_and_endpoints [2; 5; 3]%Q). exact H.
Defined.

(** ** Further properties of the redundancy estimator *)

(** The rows that [knn_redundancy] averages. *)
Lemma knn_redundancy_rows vecs k :
  0 < length vecs →
  knn_redundancy vecs k
  = map (fun v =>
           let s := take (Nat.min (k + 1) (length vecs))
                      (merge_sort (flip Qle) (matvec vecs v)) in
           Qmean (if decide (1 < Nat.min (k + 1) (length vecs))
                  then drop 1 s else s)) vecs.
Proof.
  intros Hn. unfold knn_redundancy, search.
  destruct (decide (1 < Nat.min (k + 1) (length vecs))) as [H1|H1].
  - rewrite decide_False by nia.
    rewrite <- !list_fmap_compose. done.
  - rewrite decide_False by nia.
    rewrite <- !list_fmap_compose. done.
Qed.

(** ** Further properties of the pipeline *)

Lemma mask_select_elem_of {A} (mask : list bool) : ∀ (arr : list A) x,
  x ∈ mask_select mask arr → x ∈ arr.
Proof.
  induction mask as [|m mask IH]; intros [|a arr] x Hx; simpl in *;
    try by apply not_elem_of_nil in Hx.
  destruct m.
  - apply elem_of_cons in Hx as [->|Hx]; [apply list_elem_of_here|].
    apply list_elem_of_further. by apply IH.
  - apply list_elem_of_further. by apply IH.
Qed.

Lemma group_cutpoints_Some assign_idx novelty_dist i p d :
  assign_idx !! i = Some p → novelty_dist !! i = Some d →
  ∃ qs, mapM (np_quantile (group_dists assign_idx novelty_dist p))
          BAND_QUANTILES = Some qs ∧
        group_cutpoints assign_idx novelty_dist p = qs ∧
        length qs = 3.
Proof.
  intros Hp Hd.
  destruct (quantiles_is_Some (group_dists assign_idx novelty_dist p)
              BAND_QUANTILES) as (qs & Hqs & Hlen).
  { unfold group_dists. eapply (mask_select_nonempty _ _ i); [|done].
    rewrite list_lookup_fmap, Hp. simpl. by rewrite bool_decide_eq_true_2. }
  { apply BAND_QUANTILES_fractions. }
  exists qs. unfold group_cutpoints. rewrite Hqs. done.
Qed.

Lemma length_group_cutpoints assign_idx novelty_dist p :
  length (group_cutpoints assign_idx novelty_dist p) ≤ 3.
Proof.
  unfold group_cutpoints.
  destruct (mapM _ BAND_QUANTILES) as [qs|] eqn:E; simpl; [|lia].
  apply length_mapM in E. simpl in E. lia.
Qed.

(** A distance that is the least of its group is in band 0. *)
Lemma group_least_band_zero assign_idx novelty_dist i p d :
  assign_idx !! i = Some p → novelty_dist !! i = Some d →
  Forall (fun x => (d <= x)%Q) (group_dists assign_idx novelty_dist p) →
  band_of (group_cutpoints assign_idx novelty_dist p) d = 0.
Proof.
  intros Hp Hd Hmin.
  destruct (group_cutpoints_Some assign_idx novelty_dist i p d Hp Hd)
    as (qs & Hqs & -> & Hlen).
  destruct (lookup_lt_is_Some_2 qs 0) as [c0 Hc0]; [lia|].
  apply mapM_Some in Hqs.
  destruct (Forall2_lookup_r _ _ _ _ _ Hqs Hc0) as (q0 & _ & Hq0).
  destruct (np_quantile_between _ q0 c0 Hq0) as [Hlow _].
  specialize (Hlow d Hmin).
  destruct (band_of_is_band qs d) as [(c & Hc & Hle & Hbefore)|[Hn Hall]].
  - destruct (band_of qs d) as [|b] eqn:Eb; [done|]. exfalso.
    pose proof (Hbefore 0 c0 ltac:(lia) Hc0) as Hlt. lra.
  - exfalso. rewrite Forall_forall in Hall.
    assert (c0 < d)%Q by (apply Hall; by eapply list_elem_of_lookup_2).
    lra.
Qed.

(** X12: on a non-empty corpus [process_file] returns one record per chunk,
    numbered 0 to N-1, at most 12 pivots, and in every record the local
    index names a returned pivot, the pivot id is that pivot and a chunk of
    the corpus, and the band is at most 3; the CSV export has one row per
    chunk. *)
Theorem records_well_formed (vecs : matrix) (rng : list nat) :
  1 ≤ length vecs →
  ∃ out,
    process_file vecs rng = Some out ∧
    length (structured_dataset_jsonl out) = length vecs ∧
    length (train_csv out) = length vecs ∧
    length (pivots_json out) ≤ 12 ∧
    Forall (fun r =>
              structured_dataset_jsonl out !! id r = Some r ∧
              pivot_local_index r < length (pivots_json out) ∧
              pivots_json out !! pivot_local_index r = Some (pivot_id r) ∧
              pivot_id r < length vecs ∧
              band r ≤ 3)
      (structured_dataset_jsonl out).
Proof.
  intros Hn.
  destruct (process_file_spec vecs rng) as
    (out & a & nd & bands & Hout & Has & _ & _ & Hpiv & Hdf & Hcsv & Hlen
     & Hrec); [lia|].
  exists out. split_and!; [done|done| | |].
  - rewrite Hcsv, length_map, Hdf, merge_sort_Permutation. done.
  - rewrite Hpiv.
    pose proof (pivot_count_aux vecs
      (Z.min NUM_PIVOTS (Z.max 1 (Z.sqrt_up (Z.of_nat (length vecs))))) rng
      ltac:(lia)) as Hc.
    unfold NUM_PIVOTS in *. lia.
  - apply Forall_forall. intros r Hr.
    rewrite <- Hpiv in Has.
    destruct (process_file_bands vecs rng out a nd ltac:(lia) Hout Has r Hr)
      as (d & _ & _ & Hband).
    apply list_elem_of_lookup in Hr as [i Hi]. pose proof Hi as Hi'.
    apply Hrec in Hi. apply build_record_Some in Hi.
    destruct Hi as (pl & pg & b & nov & red & e & Hpl & Hpg & _ & _ & _ & _
                    & Hr).
    subst r. simpl in *. split_and!.
    + done.
    + rewrite Hpiv. by eapply lookup_lt_Some.
    + by rewrite Hpiv.
    + destruct (greedy_farthest_pivots_spec vecs
        (Z.min NUM_PIVOTS (Z.max 1 (Z.sqrt_up (Z.of_nat (length vecs)))))
        rng ltac:(lia)) as (_ & _ & _ & Hrange & _).
      rewrite Forall_forall in Hrange. apply Hrange.
      by eapply list_elem_of_lookup_2.
    + rewrite Hband.
      etrans; [eapply is_band_le_length, band_of_is_band|].
      apply length_group_cutpoints.
Qed.

Lemma records_well_formed_witness :
  1 ≤ length example_corpus ∧
  ∃ out, process_file example_corpus [] = Some out ∧
         length (structured_dataset_jsonl out) = 3.
Proof.
  split; [simpl; lia|].
  destruct (records_well_formed example_corpus [])
    as (out & H1 & H2 & _); [simpl; lia|].
  by exists out.
Defined.

(** X13: in the records of [process_file], a chunk whose residual distance
    is the least of its pivot group is in band 0, and a chunk whose residual
    distance is the least of the corpus has novelty 0 and energy 0. *)
Theorem least_distance_records (vecs : matrix) (rng : list nat) :
  1 ≤ length vecs →
  ∃ out assign_idx novelty_dist,
    process_file vecs rng = Some out ∧
    assign_to_nearest_pivot vecs (pivots_json out)
      = Some (assign_idx, novelty_dist) ∧
    Forall (fun r =>
              ∃ d, novelty_dist !! id r = Some d ∧
                (Forall (fun x => (d <= x)%Q)
                   (group_dists assign_idx novelty_dist (pivot_local_index r))
                 → band r = 0) ∧
                (Forall (fun x => (d <= x)%Q) novelty_dist
                 → (novelty r == 0)%Q ∧ (energy r == 0)%Q))
      (structured_dataset_jsonl out).
Proof.
  intros Hn.
  destruct (process_file_spec vecs rng) as
    (out & a & nd & bands & Hout & Has & _ & _ & Hpiv & _ & _ & Hlen & Hrec);
    [lia|].
  rewrite <- Hpiv in Has.
  exists out, a, nd. split_and!; [done|done|].
  apply Forall_forall. intros r Hr.
  destruct (process_file_bands vecs rng out a nd ltac:(lia) Hout Has r Hr)
    as (d & Hd & Hpl & Hband).
  exists d. split_and!; [done| |].
  - intros Hmin. rewrite Hband. by eapply group_least_band_zero.
  - intros Hmin.
    apply list_elem_of_lookup in Hr as [i Hi].
    apply Hrec in Hi. apply build_record_Some in Hi.
    destruct Hi as (pl & pg & b & nov & red & e & _ & _ & _ & Hnov & Hred & He
                    & Hr).
    subst r. simpl in *.
    assert (nov == 0)%Q as Hnov0.
    { destruct (minmax_norm_lookup nd i d Hd) as (y & Hy & Hc).
      assert (y = nov) as -> by congruence.
      destruct Hc as [[_ ->]|[Hgap ->]]; [reflexivity|].
      assert (nd ≠ []) as Hne by (intros E; rewrite E in Hd; done).
      pose proof (np_min_le nd) as Hlo. rewrite Forall_forall in Hlo.
      assert (np_min nd <= d)%Q
        by (apply Hlo; by eapply list_elem_of_lookup_2).
      assert (d <= np_min nd)%Q.
      { rewrite Forall_forall in Hmin. apply Hmin. by apply np_min_in. }
      assert (d - np_min nd == 0)%Q as Ez by lra.
      unfold Qdiv. rewrite Ez. ring. }
    split; [done|].
    apply lookup_zip_with_Some in He as (a' & b' & -> & Ha' & _).
    assert (a' = nov) as -> by congruence. rewrite Hnov0. ring.
Qed.

Lemma least_distance_records_witness :
  1 ≤ length example_corpus ∧
  ∃ out, process_file example_corpus [] = Some out.
Proof.
  split; [simpl; lia|].
  destruct (least_distance_records example_corpus [])
    as (out & a & nd & H1 & _); [simpl; lia|].
  by exists out.
Defined.

Lemma minmax_norm_constant x c :
  Forall (fun y => y = c) x → Forall (fun y => y = 0%Q) (minmax_norm x).
Proof.
  intros Hc. destruct (decide (x = [])) as [->|Hne]; [constructor|].
  apply minmax_norm_degenerate. rewrite Forall_forall in Hc.
  rewrite (Hc _ (np_max_in x Hne)), (Hc _ (np_min_in x Hne)).
  assert (c - c == 0)%Q as -> by ring. reflexivity.
Qed.

Lemma argmin_constant l c : Forall (fun y => y = c) l → argmin l = 0.
Proof.
  intros Hc. destruct (decide (l = [])) as [->|Hne]; [done|].
  destruct (argmin_spec l Hne) as (m & Hm & _ & Hlt).
  destruct (argmin l) as [|b]; [done|]. exfalso.
  destruct (lookup_lt_is_Some_2 l 0) as [y Hy].
  { apply lookup_lt_Some in Hm. lia. }
  specialize (Hlt 0 y ltac:(lia) Hy). rewrite Forall_forall in Hc.
  rewrite (Hc y) in Hlt by (by eapply list_elem_of_lookup_2).
  rewrite (Hc m) in Hlt by (by eapply list_elem_of_lookup_2).
  by apply Qlt_irrefl in Hlt.
Qed.

(** X14: on a non-empty corpus whose vectors are all the same, every record
    is assigned to chunk 0 as pivot of local index 0, in band 0, with
    novelty, redundancy and energy all 0. *)
Theorem constant_corpus_all_zero (vecs : matrix) (rng : list nat) (v : vec) :
  1 ≤ length vecs →
  Forall (fun u => u = v) vecs →
  ∃ out,
    process_file vecs rng = Some out ∧
    Forall (fun r => pivot_id r = 0 ∧ pivot_local_index r = 0 ∧ band r = 0 ∧
                     novelty r = 0%Q ∧ redundancy r = 0%Q ∧
                     (energy r == 0)%Q)
      (structured_dataset_jsonl out).
Proof.
  intros Hn Hconst.
  assert (∀ i u, vecs !! i = Some u → u = v) as Hv.
  { intros i u Hi. rewrite Forall_forall in Hconst. apply Hconst.
    by eapply list_elem_of_lookup_2. }
  destruct (process_file_spec vecs rng) as
    (out & a & nd & bands & Hout & Has & _ & _ & Hpiv & _ & _ & Hlen & Hrec);
    [lia|].
  set (mp := Z.min NUM_PIVOTS (Z.max 1 (Z.sqrt_up (Z.of_nat (length vecs)))))
    in *.
  destruct (greedy_farthest_pivots_spec vecs mp rng ltac:(lia))
    as (Hperm & Hsorted & _ & Hrange & Hlenp & _).
  set (pivots := greedy_farthest_pivots vecs mp rng) in *.
  assert (pivots ≠ []) as Hne.
  { intros E. apply (f_equal length) in E. simpl in E. lia. }
  (* chunk 0 is the seed, hence the first pivot *)
  assert (pivots !! 0 = Some 0) as Hp0.
  { assert (0 ∈ pivots) as Hin.
    { rewrite Hperm.
      destruct (greedy_selection_unfold vecs mp rng ltac:(lia)) as [_ ->].
      rewrite (argmin_constant (matvec vecs (mean_axis0 vecs))
                 (dot v (mean_axis0 vecs))).
      - eapply elem_of_prefix; [apply list_elem_of_here|].
        apply fps_loop_prefix.
      - unfold matvec. apply Forall_fmap, Forall_forall. intros u Hu. simpl.
        rewrite Forall_forall in Hconst. by rewrite (Hconst u Hu). }
    apply list_elem_of_lookup in Hin as [k Hk].
    pose proof (sorted_lt_position pivots k 0 Hsorted Hk) as Hpos.
    assert (∀ l : list nat, filter (fun x => x < 0) l = []) as Hnone.
    { induction l as [|y l IHl]; [done|].
      by rewrite filter_cons_False by lia. }
    rewrite Hnone in Hpos. simpl in Hpos. by subst k. }
  destruct (assign_spec vecs pivots Hne Hrange)
    as (a' & nd' & Has' & Hla & Hlnd & Hi).
  rewrite Has in Has'. injection Has' as <- <-.
  (* every chunk goes to local index 0 at the same distance *)
  assert (∀ i, i < length vecs →
            a !! i = Some 0 ∧ nd !! i = Some (1 - dot v v)%Q) as Hassign.
  { intros i Hi'. destruct (lookup_lt_is_Some_2 vecs i Hi') as [u Hu].
    pose proof (Hv i u Hu) as ->.
    destruct (Hi i v Hu) as (b & p & pv & Hb & Hp & Hpv & Hd & _ & Hlt).
    pose proof (Hv p pv Hpv) as ->. split; [|done].
    destruct b as [|b]; [done|]. exfalso.
    destruct (lookup_lt_is_Some_2 vecs 0 ltac:(lia)) as [u0 Hu0].
    pose proof (Hv 0 u0 Hu0) as ->.
    specialize (Hlt 0 0 v ltac:(lia) Hp0 Hu0). by apply Qlt_irrefl in Hlt. }
  assert (Forall (fun y => y = (1 - dot v v)%Q) nd) as Hnd.
  { apply Forall_forall. intros y Hy.
    apply list_elem_of_lookup in Hy as [i Hy].
    destruct (Hassign i) as [_ H]; [apply lookup_lt_Some in Hy; lia|].
    congruence. }
  pose proof (minmax_norm_constant nd _ Hnd) as Hnov.
  assert (Forall (fun y => y = 0%Q) (minmax_norm (knn_redundancy vecs KNN)))
    as Hred.
  { rewrite knn_redundancy_rows by lia.
    eapply minmax_norm_constant. apply Forall_fmap.
    eapply Forall_impl; [exact Hconst|]. intros u ->. simpl. reflexivity. }
  exists out. split; [done|]. apply Forall_forall. intros r Hr.
  rewrite <- Hpiv in Has.
  destruct (process_file_bands vecs rng out a nd ltac:(lia) Hout Has r Hr)
    as (d & Hd & Hpl & Hband).
  apply list_elem_of_lookup in Hr as [i Hi'].
  assert (i < length vecs) as Hilt
    by (apply lookup_lt_Some in Hi'; lia).
  apply Hrec in Hi'. apply build_record_Some in Hi'.
  destruct Hi' as (pl & pg & b & nov & red & e & Hpl' & Hpg & _ & Hn' & Hr'
                   & He & Hreq).
  subst r. simpl in *.
  destruct (Hassign i Hilt) as [Ha Hdi].
  assert (pl = 0) as -> by congruence.
  assert (pg = 0) as -> by congruence.
  assert (d = (1 - dot v v)%Q) as -> by congruence.
  rewrite Forall_forall in Hnov, Hred.
  assert (nov = 0%Q) as ->
    by (apply Hnov; by eapply list_elem_of_lookup_2).
  assert (red = 0%Q) as ->
    by (apply Hred; by eapply list_elem_of_lookup_2).
  split_and!; [done|done| |done|done|].
  - rewrite Hband. eapply group_least_band_zero; [done|done|].
    apply Forall_forall. intros x Hx. apply mask_select_elem_of in Hx.
    rewrite Forall_forall in Hnd. rewrite (Hnd x Hx). apply Qle_refl.
  - apply lookup_zip_with_Some in He as (a' & b' & -> & Ha' & Hb').
    assert (a' = 0%Q) as -> by congruence. ring.
Qed.

Lemma constant_corpus_all_zero_witness :
  1 ≤ length [[1; 0]; [1; 0]]%Q ∧
  ∃ out, process_file [[1; 0]; [1; 0]]%Q [4] = Some out.
Proof.
  split; [simpl; lia|].
  destruct (constant_corpus_all_zero [[1; 0]; [1; 0]]%Q [4] [1; 0]%Q)
    as (out & H1 & _); [simpl; lia|repeat constructor|].
  by exists out.
Defined.

(** ** Properties of the chunker *)

Section chunker_facts.
Variable isspace : char → bool.
Variable re_split_sentences : str → list str.
Variable re_split_newlines : str → list str.

Local Abbreviation lstrip := (lstrip isspace).
Local Abbreviation rstrip := (rstrip isspace).
Local Abbreviation strip := (strip isspace).
Local Abbreviation stripped := (stripped isspace).
Local Abbreviation split_into_sentences :=
  (split_into_sentences isspace re_split_sentences re_split_newlines).
Local Abbreviation all_sentences :=
  (all_sentences isspace re_split_sentences re_split_newlines).
Local Abbreviation make_chunks :=
  (make_chunks isspace re_split_sentences re_split_newlines).

Lemma lstrip_suffix s : lstrip s `suffix_of` s.
Proof.
  induction s as [|c s IH]; simpl; [done|].
  destruct (isspace c); [by apply suffix_cons_r|done].
Qed.

Lemma lstrip_head s c t : lstrip s = c :: t → isspace c = false.
Proof.
  induction s as [|d s IH]; simpl; [done|].
  destruct (isspace d) eqn:E; [done|]. by intros [= <- <-].
Qed.

Lemma lstrip_id c t : isspace c = false → lstrip (c :: t) = c :: t.
Proof. intros H. simpl. by rewrite H. Qed.

Lemma lstrip_idemp s : lstrip (lstrip s) = lstrip s.
Proof.
  destruct (lstrip s) as [|c t] eqn:E; [done|].
  apply lstrip_id. by eapply lstrip_head.
Qed.

Lemma lstrip_app_keep a c t :
  isspace c = false → (c :: t) `suffix_of` lstrip (a ++ c :: t).
Proof.
  intros Hc. induction a as [|d a IH]; simpl.
  - by rewrite Hc.
  - destruct (isspace d); [done|].
    by apply suffix_cons_r, suffix_app_r.
Qed.

Lemma rstrip_prefix s : rstrip s `prefix_of` s.
Proof.
  unfold rstrip. destruct (lstrip_suffix (reverse s)) as [k Hk].
  exists (reverse k). apply (inj reverse).
  by rewrite reverse_app, !reverse_involutive.
Qed.

Lemma rstrip_snoc t c : isspace c = false → rstrip (t ++ [c]) = t ++ [c].
Proof.
  intros Hc. unfold rstrip. rewrite reverse_snoc, lstrip_id by done.
  by rewrite reverse_cons, reverse_involutive.
Qed.

Lemma rstrip_last s t c : rstrip s = t ++ [c] → isspace c = false.
Proof.
  unfold rstrip. intros H. apply (f_equal reverse) in H.
  rewrite reverse_involutive, reverse_snoc in H. by eapply lstrip_head.
Qed.

Lemma length_strip s : length (strip s) ≤ length s.
Proof.
  unfold strip.
  etrans; [apply prefix_length, rstrip_prefix|].
  apply suffix_length, lstrip_suffix.
Qed.

Lemma strip_ends s c t :
  strip s = c :: t →
  isspace c = false ∧ ∃ t' c', strip s = t' ++ [c'] ∧ isspace c' = false.
Proof.
  intros H. split.
  - destruct (rstrip_prefix (lstrip s)) as [k Hk].
    unfold strip in H. rewrite H in Hk. simpl in Hk.
    by eapply lstrip_head.
  - destruct (strip s) as [|c' t'] eqn:E using rev_ind; [done|].
    exists t', c'. split; [done|]. unfold strip in E. by eapply rstrip_last.
Qed.

Lemma stripped_ends s c t c' t' :
  s = c :: t → s = t' ++ [c'] → isspace c = false → isspace c' = false →
  stripped s.
Proof.
  intros H1 H2 Hc Hc'. unfold stripped, strip.
  rewrite H1, lstrip_id by done. rewrite <- H1, H2. by apply rstrip_snoc.
Qed.

Lemma strip_idemp s : stripped (strip s).
Proof.
  destruct (strip s) as [|c t] eqn:E; [done|].
  destruct (strip_ends s c t E) as (Hc & t' & c' & E' & Hc').
  rewrite E in E'. by eapply stripped_ends.
Qed.

Lemma stripped_nonempty_ends s :
  stripped s → s ≠ [] →
  ∃ c t t' c', s = c :: t ∧ s = t' ++ [c'] ∧
               isspace c = false ∧ isspace c' = false.
Proof.
  intros Hs Hne. destruct s as [|c t] eqn:E; [done|].
  rewrite <- E in *. unfold stripped in Hs.
  assert (strip s = c :: t) as H by congruence.
  destruct (strip_ends s c t H) as (Hc & t' & c' & E' & Hc').
  exists c, t, t', c'. rewrite Hs in E'. done.
Qed.

(** Joining onto a stripped sentence: what [strip] returns still ends with
    the sentence, and nothing is removed when the left part is stripped
    too. *)
Lemma strip_join_suffix a s :
  stripped s → s ≠ [] →
  stripped (strip (a ++ [space] ++ s)) ∧
  s `suffix_of` strip (a ++ [space] ++ s).
Proof.
  intros Hs Hne. split; [apply strip_idemp|].
  destruct (stripped_nonempty_ends s Hs Hne)
    as (c & t & t' & c' & E1 & E2 & Hc & Hc').
  unfold strip.
  pose proof (lstrip_app_keep (a ++ [space]) c t Hc) as Hsuf.
  rewrite <- E1, <- app_assoc in Hsuf.
  destruct Hsuf as [k Hk]. rewrite Hk.
  rewrite E2, app_assoc, rstrip_snoc by done.
  rewrite <- app_assoc. by apply suffix_app_r.
Qed.

Lemma strip_join_id a s :
  stripped a → a ≠ [] → stripped s → s ≠ [] →
  strip (a ++ [space] ++ s) = a ++ [space] ++ s.
Proof.
  intros Ha Hane Hs Hne.
  destruct (stripped_nonempty_ends s Hs Hne)
    as (c & t & t' & c' & E1 & E2 & Hc & Hc').
  destruct (stripped_nonempty_ends a Ha Hane)
    as (d & u & u' & d' & F1 & F2 & Hd & Hd').
  eapply (stripped_ends _ d (u ++ [space] ++ s) c' (a ++ [space] ++ t')).
  - by rewrite F1.
  - rewrite E2 at 1. by rewrite !app_assoc.
  - done.
  - done.
Qed.

Lemma split_into_sentences_stripped text :
  Forall (fun s => s ≠ [] ∧ stripped s) (split_into_sentences text).
Proof.
  unfold split_into_sentences.
  apply Forall_fmap, Forall_forall. intros s Hs.
  apply list_elem_of_filter in Hs as [Hs _]. simpl.
  split; [done|apply strip_idemp].
Qed.

Lemma foldl_concat {A B C} (f : A → C → A) (g : B → list C) l : ∀ a,
  foldl (fun st x => foldl f st (g x)) a l = foldl f a (concat (map g l)).
Proof.
  induction l as [|x l IH]; intros a; simpl; [done|].
  by rewrite foldl_app, IH.
Qed.
End chunker_facts.

Section chunker_loop.
Variable isspace : char → bool.
Variable re_split_sentences : str → list str.
Variable re_split_newlines : str → list str.
Variables target_len overlap : Z.

Local Abbreviation strip := (strip isspace).
Local Abbreviation stripped := (stripped isspace).
Local Abbreviation step := (chunk_step isspace target_len overlap).

(** The two branches of one round of the loop. *)
Lemma chunk_step_cases chunks buf s :
  ∃ chunks' buf',
    step (chunks, buf) s = (chunks', buf') ∧
    (((Z.of_nat (length buf) + 1 + Z.of_nat (length s) ≤ target_len)%Z ∧
      chunks' = chunks ∧
      ((buf = [] ∧ buf' = s) ∨
       (buf ≠ [] ∧ buf' = strip (buf ++ [space] ++ s)))) ∨
     ((target_len < Z.of_nat (length buf) + 1 + Z.of_nat (length s))%Z ∧
      ((buf = [] ∧ chunks' = chunks) ∨
       (buf ≠ [] ∧ chunks' = chunks ++ [buf])) ∧
      (((0 < overlap < Z.of_nat (length buf))%Z ∧
        buf' = strip (drop (length buf - Z.to_nat overlap) buf
                        ++ [space] ++ s)) ∨
       (¬ (0 < overlap < Z.of_nat (length buf))%Z ∧ buf' = s)))).
Proof.
  unfold chunk_step.
  destruct (decide (_ ≤ target_len)%Z) as [Hfit|Hfit].
  - eexists _, _. split; [done|]. left. split_and!; [done|done|].
    destruct (decide (buf = [])); [by left|by right].
  - destruct (decide (0 < overlap ∧ _)%Z) as [Hov|Hov];
      eexists _, _; (split; [done|]); right;
      (split_and!; [lia| |]).
    + destruct (decide (buf = [])); [by left|by right].
    + by left.
    + destruct (decide (buf = [])); [by left|by right].
    + by right.
Qed.

Lemma chunk_step_within L st s :
  (Z.of_nat (length s) ≤ L)%Z →
  within target_len overlap L st → within target_len overlap L (step st s).
Proof.
  destruct st as [chunks buf]. unfold within. cbv zeta.
  intros Hs [Hc Hb]. cbn [fst snd] in Hc, Hb.
  destruct (chunk_step_cases chunks buf s) as (chunks' & buf' & -> & Hcase).
  cbn [fst snd].
  destruct Hcase as [(Hfit & -> & Hbuf)|(Hflush & Hch & Hbuf)].
  - split; [done|].
    destruct Hbuf as [[_ ->]|[_ ->]]; [lia|].
    pose proof (length_strip isspace (buf ++ [space] ++ s)) as Hl.
    rewrite !length_app in Hl. cbn [length] in Hl. lia.
  - split.
    + destruct Hch as [[_ ->]|[_ ->]]; [done|].
      apply Forall_app. split; [done|]. by apply Forall_singleton.
    + destruct Hbuf as [[Hov ->]|[_ ->]]; [|lia].
      pose proof (length_strip isspace
        (drop (length buf - Z.to_nat overlap) buf ++ [space] ++ s)) as Hl.
      rewrite !length_app, length_drop in Hl. cbn [length] in Hl. lia.
Qed.

Lemma chunk_loop_within L ss : ∀ st,
  Forall (fun s => (Z.of_nat (length s) ≤ L)%Z) ss →
  within target_len overlap L st →
  within target_len overlap L (foldl step st ss).
Proof.
  induction ss as [|s ss IH]; intros st Hss Hst; simpl; [done|].
  apply Forall_cons in Hss as [Hs Hss].
  apply IH; [done|]. by apply chunk_step_within.
Qed.

Lemma chunk_step_pending st s : pending (step st s) ≤ S (pending st).
Proof.
  destruct st as [chunks buf].
  destruct (chunk_step_cases chunks buf s) as (chunks' & buf' & -> & Hcase).
  unfold pending. cbn [fst snd].
  destruct Hcase as [(_ & -> & Hbuf)|(_ & Hch & _)].
  - destruct Hbuf as [[-> _]|[Hne _]]; repeat case_decide; try done; lia.
  - destruct Hch as [[-> ->]|[Hne ->]]; rewrite ?length_app; cbn [length];
      repeat case_decide; try done; lia.
Qed.

Lemma chunk_loop_pending ss : ∀ st,
  pending (foldl step st ss) ≤ length ss + pending st.
Proof.
  induction ss as [|s ss IH]; intros st; simpl; [lia|].
  etrans; [apply IH|]. pose proof (chunk_step_pending st s). lia.
Qed.

Lemma substring_of_suffix (s t : str) : s `suffix_of` t → substring_of s t.
Proof. intros [k ->]. exists k, []. by rewrite app_nil_r. Qed.

Lemma substring_of_app_l (x a b : str) :
  substring_of x a → substring_of x (a ++ b).
Proof.
  intros (u & w & ->). exists u, (w ++ b). by rewrite <- !app_assoc.
Qed.

Lemma chunk_step_covers seen st s :
  s ≠ [] → stripped s → covers isspace seen st →
  covers isspace (seen ++ [s]) (step st s).
Proof.
  destruct st as [chunks buf]. intros Hne Hs (Hb & Hc & Hnb & Hcov).
  simpl in Hb, Hc, Hnb, Hcov.
  destruct (chunk_step_cases chunks buf s) as (chunks' & buf' & -> & Hcase).
  unfold covers. simpl.
  assert (stripped buf' ∧ s `suffix_of` buf' ∧
          (buf ≠ [] → chunks' = chunks → ∀ x, substring_of x buf →
                                              substring_of x buf'))
    as (Hb' & Hsuf & Hkeep).
  { destruct Hcase as [(_ & _ & Hbuf)|(_ & Hch & Hbuf)].
    - destruct Hbuf as [[-> ->]|[Hbne ->]]; [done|].
      rewrite (strip_join_id isspace buf s) by done.
      split_and!.
      + rewrite <- (strip_join_id isspace buf s) by done.
        apply strip_idemp.
      + rewrite app_assoc. by apply suffix_app_r.
      + intros _ _ x Hx. by apply substring_of_app_l.
    - assert (buf ≠ [] → chunks' = chunks → False) as Hno.
      { intros Hbne E. destruct Hch as [[? _]|[_ E']]; [done|].
        rewrite E in E'. apply (f_equal length) in E'.
        rewrite length_app in E'. simpl in E'. lia. }
      destruct Hbuf as [[_ ->]|[_ ->]].
      + destruct (strip_join_suffix isspace
                    (drop (length buf - Z.to_nat overlap) buf) s Hs Hne)
          as [H1 H2].
        split_and!; [done|done|]. intros H3 H4. by destruct (Hno H3 H4).
      + split_and!; [done|done|]. intros H3 H4. by destruct (Hno H3 H4). }
  assert (buf' ≠ []) as Hbne'.
  { intros E. rewrite E in Hsuf. apply suffix_nil_inv in Hsuf. done. }
  assert (Forall (fun c => c ≠ [] ∧ stripped c) chunks' ∧
          (∀ c, c ∈ chunks → c ∈ chunks') ∧
          (buf = [] ∨ chunks' = chunks ∨ buf ∈ chunks'))
    as (Hc' & Hmono & Hwhere).
  { destruct Hcase as [(_ & -> & _)|(_ & Hch & _)].
    - split_and!; [done|done|by right; left].
    - destruct Hch as [[-> ->]|[Hbne ->]].
      + split_and!; [done|done|by left].
      + split_and!.
        * apply Forall_app. split; [done|]. by apply Forall_singleton.
        * intros c Hc0. apply elem_of_app. by left.
        * right; right. apply elem_of_app. right. apply list_elem_of_here. }
  split_and!; [done|done|done|].
  intros x Hx. apply elem_of_app in Hx as [Hx|Hx].
  - destruct (Hcov x Hx) as [(c & Hcin & Hsub)|Hsub].
    + left. exists c. split; [by apply Hmono|done].
    + destruct (decide (buf = [])) as [->|Hbne].
      * destruct Hsub as (u & w & E). symmetry in E.
        apply app_eq_nil in E as [_ E]. apply app_eq_nil in E as [-> _].
        right. exists [], buf'. done.
      * destruct Hwhere as [?|[E|Hin]]; [done| |].
        -- right. by apply Hkeep.
        -- left. by exists buf.
  - apply list_elem_of_singleton in Hx as ->.
    right. by apply substring_of_suffix.
Qed.

Lemma chunk_loop_covers ss : ∀ seen st,
  Forall (fun s => s ≠ [] ∧ stripped s) ss →
  covers isspace seen st → covers isspace (seen ++ ss) (foldl step st ss).
Proof.
  induction ss as [|s ss IH]; intros seen st Hss Hst; simpl.
  - by rewrite app_nil_r.
  - apply Forall_cons in Hss as [[Hne Hs] Hss].
    replace (seen ++ s :: ss) with ((seen ++ [s]) ++ ss)
      by (by rewrite <- app_assoc).
    apply IH; [done|]. by apply chunk_step_covers.
Qed.
End chunker_loop.

Section chunker_results.
Variable isspace : char → bool.
Variable re_split_sentences : str → list str.
Variable re_split_newlines : str → list str.

Local Abbreviation strip := (strip isspace).
Local Abbreviation stripped := (stripped isspace).
Local Abbreviation sentences :=
  (all_sentences isspace re_split_sentences re_split_newlines).
Local Abbreviation chunks_of :=
  (make_chunks isspace re_split_sentences re_split_newlines).

Lemma all_sentences_stripped paragraphs :
  Forall (fun s => s ≠ [] ∧ stripped s) (sentences paragraphs).
Proof.
  unfold all_sentences. induction paragraphs as [|p ps IH]; simpl.
  - constructor.
  - apply Forall_app. split; [apply split_into_sentences_stripped|done].
Qed.

(** [make_chunks] in terms of the final state of the loop over all the
    sentences. *)
Lemma make_chunks_unfold paragraphs target_len overlap :
  chunks_of paragraphs target_len overlap
  = let st := foldl (chunk_step isspace target_len overlap) ([], [])
                (sentences paragraphs) in
    map strip
      (filter (fun c => 20 ≤ length (strip c))
         (if decide (st.2 = []) then st.1 else st.1 ++ [st.2])).
Proof.
  unfold make_chunks, all_sentences. rewrite foldl_concat.
  by destruct (foldl _ _ _) as [chunks buf].
Qed.

Lemma strip_filter_stripped (cs : list str) :
  Forall stripped cs →
  map strip (filter (fun c => 20 ≤ length (strip c)) cs)
  = filter (fun c => 20 ≤ length c) cs.
Proof.
  induction 1 as [|c cs Hc _ IH]; [done|].
  rewrite !filter_cons, Hc. destruct (decide (20 ≤ length c)); [|done].
  simpl. by rewrite Hc, IH.
Qed.

(** X15: every sentence that [split_into_sentences] returns is non-empty
    and has no whitespace at either end, whatever the two regular-expression
    splits return. *)
Theorem sentences_nonempty_and_stripped (text : str) :
  Forall (fun s => s ≠ [] ∧
                   ∃ c t t' c', s = c :: t ∧ s = t' ++ [c'] ∧
                                isspace c = false ∧ isspace c' = false)
    (split_into_sentences isspace re_split_sentences re_split_newlines text).
Proof.
  eapply Forall_impl; [apply split_into_sentences_stripped|].
  intros s [Hne Hs]. split; [done|]. by apply stripped_nonempty_ends.
Qed.

(** X16: when no sentence is longer than [L], every chunk has at least 20
    characters, no whitespace at either end, and at most
    [max(target_len, max(0, overlap) + 1 + L)] characters. *)
Theorem make_chunks_length_bound
    (paragraphs : list str) (target_len overlap L : Z) :
  Forall (fun s => (Z.of_nat (length s) ≤ L)%Z)
    (all_sentences isspace re_split_sentences re_split_newlines
       paragraphs) →
  Forall (fun c =>
            20 ≤ length c ∧ strip c = c ∧
            (Z.of_nat (length c)
             ≤ Z.max target_len (Z.max 0 overlap + 1 + L))%Z)
    (make_chunks isspace re_split_sentences re_split_newlines
       paragraphs target_len overlap).
Proof.
  intros HL. rewrite make_chunks_unfold. cbv zeta.
  destruct (decide (sentences paragraphs = [])) as [E|Hne].
  { rewrite E. simpl. apply Forall_nil_2. }
  assert (0 ≤ L)%Z as HL0.
  { destruct (sentences paragraphs) as [|s0 ss]; [done|].
    apply Forall_cons in HL as [H0 _]. lia. }
  pose proof (chunk_loop_within isspace target_len overlap L
                (sentences paragraphs) ([], []) HL) as Hw.
  pose proof (chunk_loop_covers isspace target_len overlap
                (sentences paragraphs) [] ([], [])
                (all_sentences_stripped paragraphs)) as Hc.
  destruct (foldl _ _ _) as [chunks buf].
  destruct Hw as [Hwc Hwb].
  { split; simpl; [apply Forall_nil_2|lia]. }
  destruct Hc as (Hsb & Hsc & _).
  { split_and!; simpl; [done|apply Forall_nil_2|done|].
    intros x Hx. by apply not_elem_of_nil in Hx. }
  cbn [fst snd] in *.
  set (final := if decide (buf = []) then chunks else chunks ++ [buf]).
  assert (Forall (fun c => stripped c ∧
            (Z.of_nat (length c)
             ≤ Z.max target_len (Z.max 0 overlap + 1 + L))%Z) final)
    as Hfinal.
  { assert (Forall (fun c => stripped c ∧
              (Z.of_nat (length c)
               ≤ Z.max target_len (Z.max 0 overlap + 1 + L))%Z) chunks)
      as Hch.
    { apply Forall_forall. intros c Hcin.
      rewrite Forall_forall in Hsc, Hwc.
      split; [by apply Hsc|by apply Hwc]. }
    unfold final. destruct (decide (buf = [])); [done|].
    apply Forall_app. split; [done|]. by apply Forall_singleton. }
  rewrite strip_filter_stripped
    by (eapply Forall_impl; [exact Hfinal|]; by intros c [? _]).
  apply Forall_forall. intros c Hcin.
  apply list_elem_of_filter in Hcin as [Hlen Hcin].
  rewrite Forall_forall in Hfinal. destruct (Hfinal c Hcin) as [H1 H2].
  done.
Qed.

(** X17: there are never more chunks than sentences. *)
Theorem make_chunks_count (paragraphs : list str) (target_len overlap : Z) :
  length (make_chunks isspace re_split_sentences re_split_newlines
            paragraphs target_len overlap)
  ≤ length (all_sentences isspace re_split_sentences re_split_newlines
              paragraphs).
Proof.
  rewrite make_chunks_unfold. cbv zeta.
  pose proof (chunk_loop_pending isspace target_len overlap
                (sentences paragraphs) ([], [])) as Hp.
  destruct (foldl _ _ _) as [chunks buf].
  unfold pending in Hp. cbn [fst snd] in *.
  rewrite length_map. etrans; [apply length_filter|].
  assert ((if decide (@nil char = []) then 0 else 1) = 0) as E0
    by (by rewrite decide_True).
  destruct (decide (buf = [])); rewrite ?length_app; cbn [length];
     rewrite E0 in Hp; simpl in Hp; lia.
Qed.

(** X18: every sentence of at least 20 characters occurs, as a run of
    consecutive characters, in one of the chunks. *)
Theorem make_chunks_covers_sentences
    (paragraphs : list str) (target_len overlap : Z) (s : str) :
  s ∈ all_sentences isspace re_split_sentences re_split_newlines
        paragraphs →
  20 ≤ length s →
  ∃ c, c ∈ make_chunks isspace re_split_sentences re_split_newlines
             paragraphs target_len overlap ∧
       substring_of s c.
Proof.
  intros Hs Hlen. rewrite make_chunks_unfold. cbv zeta.
  pose proof (chunk_loop_covers isspace target_len overlap
                (sentences paragraphs) [] ([], [])
                (all_sentences_stripped paragraphs)) as Hc.
  destruct (foldl _ _ _) as [chunks buf].
  destruct Hc as (Hsb & Hsc & Hnb & Hcov).
  { split_and!; simpl; [done|apply Forall_nil_2|done|].
    intros x Hx. by apply not_elem_of_nil in Hx. }
  cbn [fst snd] in *. rewrite app_nil_l in Hcov, Hnb.
  set (final := if decide (buf = []) then chunks else chunks ++ [buf]).
  assert (Forall stripped final) as Hfinal.
  { unfold final. assert (Forall stripped chunks) as Hch
      by (eapply Forall_impl; [exact Hsc|]; by intros c [_ ?]).
    destruct (decide (buf = [])); [done|].
    apply Forall_app. split; [done|]. by apply Forall_singleton. }
  rewrite strip_filter_stripped by done.
  assert (∃ c, c ∈ final ∧ substring_of s c) as (c & Hcin & Hsub).
  { destruct (Hcov s Hs) as [(c & Hcin & Hsub)|Hsub].
    - exists c. split; [|done]. unfold final.
      destruct (decide (buf = [])); [done|]. apply elem_of_app. by left.
    - exists buf. split; [|done]. unfold final.
      rewrite decide_False.
      + apply elem_of_app. right. apply list_elem_of_here.
      + apply Hnb. intros E. rewrite E in Hs.
        by apply not_elem_of_nil in Hs. }
  exists c. split; [|done]. apply list_elem_of_filter. split; [|done].
  destruct Hsub as (a & b & ->). rewrite !length_app. lia.
Qed.

Lemma join_space_app (a b : list str) :
  a ≠ [] → b ≠ [] →
  join_space (a ++ b) = join_space a ++ [space] ++ join_space b.
Proof.
  induction a as [|x a IH]; [done|]. intros _ Hb.
  destruct a as [|y a].
  - simpl. destruct b; done.
  - change ((x :: y :: a) ++ b) with (x :: ((y :: a) ++ b)).
    change (join_space (x :: (y :: a) ++ b))
      with (x ++ [space] ++ join_space ((y :: a) ++ b)).
    rewrite IH by done.
    change (join_space (x :: y :: a))
      with (x ++ [space] ++ join_space (y :: a)).
    by rewrite <- !app_assoc.
Qed.

Lemma join_space_stripped (ss : list str) :
  ss ≠ [] → Forall (fun s => s ≠ [] ∧ stripped s) ss →
  join_space ss ≠ [] ∧ stripped (join_space ss).
Proof.
  induction ss as [|x ss IH]; [done|]. intros _ Hall.
  apply Forall_cons in Hall as [[Hx Hsx] Hall].
  destruct ss as [|y ss]; [done|].
  destruct (IH ltac:(done) Hall) as [Hne Hs].
  change (join_space (x :: y :: ss))
    with (x ++ [space] ++ join_space (y :: ss)).
  split.
  - destruct x; done.
  - by apply strip_join_id.
Qed.

Lemma chunk_loop_fits target_len overlap rest : ∀ pre,
  Forall (fun s => s ≠ [] ∧ stripped s) (pre ++ rest) →
  (Z.of_nat (length (join_space (pre ++ rest))) ≤ target_len)%Z →
  foldl (chunk_step isspace target_len overlap) ([], join_space pre) rest
  = ([], join_space (pre ++ rest)).
Proof.
  induction rest as [|s rest IH]; intros pre Hall Hfit.
  - by rewrite app_nil_r.
  - replace (pre ++ s :: rest) with ((pre ++ [s]) ++ rest) in *
      by (by rewrite <- app_assoc).
    cbn [foldl].
    assert (chunk_step isspace target_len overlap ([], join_space pre) s
            = ([], join_space (pre ++ [s]))) as ->; [|by apply IH].
    apply Forall_app in Hall as [Hpre_s _].
    apply Forall_app in Hpre_s as [Hpre Hs].
    apply Forall_singleton in Hs as [Hsne Hss].
    destruct (chunk_step_cases isspace target_len overlap []
                (join_space pre) s) as (chunks' & buf' & -> & Hcase).
    destruct (decide (pre = [])) as [->|Hpne].
    + simpl in *.
      destruct Hcase as [(_ & -> & Hbuf)|(_ & Hch & Hbuf)].
      * destruct Hbuf as [[_ ->]|[? _]]; done.
      * destruct Hch as [[_ ->]|[? _]]; [|done].
        destruct Hbuf as [[Hov _]|[_ ->]]; [simpl in Hov; lia|done].
    + destruct (join_space_stripped pre Hpne Hpre) as [Hjne Hjs].
      rewrite (join_space_app pre [s]) by done. simpl join_space.
      destruct Hcase as [(_ & -> & Hbuf)|(Hflush & _)].
      * destruct Hbuf as [[? _]|[_ ->]]; [done|].
        by rewrite strip_join_id.
      * exfalso.
        assert (length (join_space (pre ++ [s]))
                ≤ length (join_space ((pre ++ [s]) ++ rest))) as Hle.
        { destruct rest as [|r rest']; [by rewrite app_nil_r|].
          rewrite (join_space_app (pre ++ [s]) (r :: rest')) by
            (done || by destruct pre).
          rewrite length_app. lia. }
        rewrite (join_space_app pre [s]) in Hle by done.
        simpl join_space in Hle. rewrite !length_app in Hle.
        cbn [length] in Hle. lia.
Qed.

(** X19: when the sentences, joined by single spaces, fit into
    [target_len], the result is that one joined text, or nothing if it has
    fewer than 20 characters. *)
Theorem make_chunks_single_chunk
    (paragraphs : list str) (target_len overlap : Z) :
  let ss :=
    all_sentences isspace re_split_sentences re_split_newlines paragraphs in
  (Z.of_nat (length (join_space ss)) ≤ target_len)%Z →
  make_chunks isspace re_split_sentences re_split_newlines
    paragraphs target_len overlap
  = if decide (20 ≤ length (join_space ss)) then [join_space ss] else [].
Proof.
  cbv zeta. intros Hfit. rewrite make_chunks_unfold. cbv zeta.
  pose proof (all_sentences_stripped paragraphs) as Hall.
  pose proof (chunk_loop_fits target_len overlap (sentences paragraphs) []
                Hall Hfit) as Hloop.
  cbn [join_space app] in Hloop. rewrite Hloop. cbn [fst snd app].
  destruct (decide (sentences paragraphs = [])) as [E|Hne].
  { rewrite E. simpl. done. }
  destruct (join_space_stripped _ Hne Hall) as [Hjne Hjs].
  rewrite decide_False by done. cbn [app].
  rewrite strip_filter_stripped by (by apply Forall_singleton).
  rewrite filter_cons, filter_nil. done.
Qed.
End chunker_results.

Lemma sample_sentences :
  all_sentences ascii_isspace no_split no_split sample_paragraphs
  = [[72; 105; 46]; [79; 75; 46]].
Proof. reflexivity. Qed.

Lemma make_chunks_length_bound_witness :
  Forall (fun s => (Z.of_nat (length s) ≤ 3)%Z)
    (all_sentences ascii_isspace no_split no_split
       sample_paragraphs) ∧
  Forall (fun c => 20 ≤ length c)
    (make_chunks ascii_isspace no_split no_split
       sample_paragraphs 350 60).
Proof.
  assert (Forall (fun s => (Z.of_nat (length s) ≤ 3)%Z)
            (all_sentences ascii_isspace no_split no_split
               sample_paragraphs)) as H.
  { rewrite sample_sentences. repeat constructor; simpl; lia. }
  split; [exact H|].
  eapply Forall_impl;
    [apply (make_chunks_length_bound ascii_isspace no_split no_split
              _ 350 60 3 H)|].
  by intros c [? _].
Defined.

Lemma make_chunks_covers_sentences_witness :
  replicate 20 97 ∈ all_sentences ascii_isspace no_split no_split
                      [replicate 20 97] ∧
  20 ≤ length (replicate 20 97) ∧
  ∃ c, c ∈ make_chunks ascii_isspace no_split no_split
             [replicate 20 97] 350 60 ∧
       substring_of (replicate 20 97) c.
Proof.
  assert (replicate 20 97 ∈ all_sentences ascii_isspace no_split no_split
                              [replicate 20 97]) as H
    by (vm_compute; apply list_elem_of_here).
  split; [exact H|]. split; [simpl; lia|].
  apply (make_chunks_covers_sentences ascii_isspace no_split no_split
           [replicate 20 97] 350 60 _ H).
  simpl; lia.
Defined.

Lemma make_chunks_single_chunk_witness :
  (Z.of_nat
     (length
        (join_space
           (all_sentences ascii_isspace no_split no_split
              sample_paragraphs))) ≤ 350)%Z ∧
  make_chunks ascii_isspace no_split no_split
    sample_paragraphs 350 60 = [].
Proof.
  assert (Z.of_nat
     (length
        (join_space
           (all_sentences ascii_isspace no_split no_split
              sample_paragraphs))) ≤ 350)%Z as H
    by (rewrite sample_sentences; simpl; lia).
  split; [exact H|].
  rewrite (make_chunks_single_chunk ascii_isspace no_split no_split _ 350 60 H).
  rewrite sample_sentences. reflexivity.
Defined.
